(** * Collatz longest-chain search: a shallow embedding of [collatz.c]

    The program scans the candidates [1 .. upperBound], computes the
    length of the Collatz chain of each one and keeps the first
    candidate with the longest chain.  All its values are C
    [unsigned int]s; on the WebAssembly target the file is written for
    (and on every mainstream ABI) that type is 32 bits wide, and its
    arithmetic is arithmetic modulo [2^32].

    Unsigned integers are modelled as [Z] with the wrap-around written
    out.  The two loops of the program are modelled with fuel: [None]
    stands for "the loop was still running when the fuel ran out". *)

From stdpp Require Import base option list list_numbers gmap pmap strings pretty.
From Stdlib Require Import ZArith Lia.

Local Open Scope Z_scope.

(** ** Machine integers *)

Definition wordsize : Z := 32.
Definition modulus : Z := 2 ^ wordsize.

(** Reduction of a mathematical result to an [unsigned int]. *)
Definition wrap (z : Z) : Z := z mod modulus.

(** The values an [unsigned int] can hold. *)
Definition uint (z : Z) : Prop := 0 <= z < modulus.

(** ** The three functions of [collatz.c], value level *)

(** [nextTerm]: [if (term % 2) return 3 * term + 1; return term / 2;] *)
Definition nextTerm (term : Z) : Z :=
  if negb (term mod 2 =? 0) then wrap (wrap (3 * term) + 1) else term / 2.

(** The [while (n > 1)] loop of [collatzChainLength], on the pair of
    locals [(n, termsCount)]. *)
Fixpoint chain_loop (fuel : nat) (n termsCount : Z) : option Z :=
  if 1 <? n then
    match fuel with
    | O => None
    | S fuel' => chain_loop fuel' (nextTerm n) (wrap (termsCount + 1))
    end
  else Some termsCount.

(** [collatzChainLength]: the loop is guarded by [if (number > 1)]. *)
Definition collatzChainLength (fuel : nat) (number : Z) : option Z :=
  if 1 <? number then chain_loop fuel number 1 else Some 1.

(** The [for (i = 0; i < upperBound; ++i)] loop of
    [determineLongestChain]; [lgChain] is the two-cell result array,
    [lgChain.1] the number and [lgChain.2] the length recorded so far. *)
Fixpoint search_loop (fuel steps : nat) (upperBound i : Z) (lgChain : Z * Z)
  : option (Z * Z) :=
  if i <? upperBound then
    match steps with
    | O => None
    | S steps' =>
      match collatzChainLength fuel (wrap (i + 1)) with
      | None => None
      | Some calculatedLength =>
        search_loop fuel steps' upperBound (wrap (i + 1))
          (if lgChain.2 <? calculatedLength
           then (wrap (i + 1), calculatedLength)
           else lgChain)
      end
    end
  else Some lgChain.

(** [determineLongestChain], returning the contents of the array it
    allocates (the array itself is modelled further down). *)
Definition determineLongestChain (fuel : nat) (upperBound : Z) : option (Z * Z) :=
  search_loop fuel fuel upperBound 0 (1, 1).

(** ** Specification vocabulary *)

(** [chain_steps n k]: started with [n], the [while] loop runs its body
    exactly [k] times and then exits. *)
Inductive chain_steps : Z -> nat -> Prop :=
| chain_stop n : n <= 1 -> chain_steps n 0
| chain_next n k : 1 < n -> chain_steps (nextTerm n) k -> chain_steps n (S k).

(** [ChainLength n r]: the call [collatzChainLength(n)] returns [r]. *)
Definition ChainLength (n r : Z) : Prop :=
  exists fuel, collatzChainLength fuel n = Some r.

(** The terms the loop visits before it exits: [n], [nextTerm n], ... *)
Fixpoint orbit (k : nat) (n : Z) : list Z :=
  match k with
  | O => []
  | S k' => n :: orbit k' (nextTerm n)
  end.

(** What the specification says of the result of a search: the recorded
    length is the greatest chain length among the candidates
    [1 .. upperBound], and the recorded number is the first candidate
    that has it. *)
Definition first_longest (upperBound bestNumber bestLength : Z) : Prop :=
  1 <= bestNumber <= upperBound /\
  ChainLength bestNumber bestLength /\
  (forall i r, 1 <= i <= upperBound -> ChainLength i r -> r <= bestLength) /\
  (forall i r, 1 <= i < bestNumber -> ChainLength i r -> r < bestLength).

(** The invariant of the search loop once candidates [1 .. i] have been
    examined.  Before the first iteration the array holds [(1, 1)],
    which is what candidate 1 is going to give. *)
Definition search_inv (i : Z) (lgChain : Z * Z) : Prop :=
  1 <= lgChain.1 <= Z.max i 1 /\
  ChainLength lgChain.1 lgChain.2 /\
  (forall j r, 1 <= j <= i -> ChainLength j r -> r <= lgChain.2) /\
  (forall j r, 1 <= j < lgChain.1 -> ChainLength j r -> r < lgChain.2).

(** The mathematical Collatz step, on unbounded integers. *)
Definition collatz_step (t : Z) : Z :=
  if Z.odd t then 3 * t + 1 else t / 2.

(** The Collatz chain length on unbounded integers: the number of terms
    of [n, collatz_step n, ...] up to the first term that is at most 1. *)
Fixpoint collatz_length (fuel : nat) (n count : Z) : option Z :=
  if 1 <? n then
    match fuel with
    | O => None
    | S fuel' => collatz_length fuel' (collatz_step n) (count + 1)
    end
  else Some count.

(** ** The three functions, machine level

    The same code once more, now with what the value-level functions
    leave out: the array that [determineLongestChain] allocates with
    [malloc] and returns a pointer to, and a record of the calls made
    to [nextTerm] and [collatzChainLength].  A computation always hands
    back the state it reached, also when the fuel runs out. *)

Inductive event : Type :=
| CallNextTerm (term : Z)
| CallChainLength (number : Z).

Record state : Type := State {
  mem : gmap Z Z;      (* the words written so far, by address *)
  brk : Z;             (* the next address [malloc] hands out *)
  trace : list event   (* the calls made so far, oldest first *)
}.

Definition M (A : Type) : Type := state -> option A * state.

Definition ret {A} (a : A) : M A := fun st => (Some a, st).

Definition bind {A B} (m : M A) (f : A -> M B) : M B :=
  fun st =>
    match m st with
    | (Some a, st') => f a st'
    | (None, st') => (None, st')
    end.

Notation "'let*' x ':=' m 'in' k" := (bind m (fun x => k))
  (at level 10, x name, m at level 100, k at level 200).

Definition out_of_fuel {A} : M A := fun st => (None, st).

Definition emit (e : event) : M unit :=
  fun st => (Some tt, State (mem st) (brk st) (trace st ++ [e])).

(** [malloc] hands out fresh words; that it can fail is not modelled
    (the program does not test for it either). *)
Definition malloc (n : Z) : M Z :=
  fun st => (Some (brk st), State (mem st) (brk st + n) (trace st)).

Definition store (a v : Z) : M unit :=
  fun st => (Some tt, State (<[a := v]> (mem st)) (brk st) (trace st)).

(** The program only loads words it has stored before. *)
Definition load (a : Z) : M Z :=
  fun st => (Some (default 0 (mem st !! a)), st).

Definition nextTerm_run (term : Z) : M Z :=
  let* _ := emit (CallNextTerm term) in
  ret (nextTerm term).

Fixpoint chain_loop_run (fuel : nat) (n termsCount : Z) : M Z :=
  if 1 <? n then
    match fuel with
    | O => out_of_fuel
    | S fuel' =>
      let* n' := nextTerm_run n in
      chain_loop_run fuel' n' (wrap (termsCount + 1))
    end
  else ret termsCount.

Definition collatzChainLength_run (fuel : nat) (number : Z) : M Z :=
  let* _ := emit (CallChainLength number) in
  if 1 <? number then chain_loop_run fuel number 1 else ret 1.

Fixpoint search_loop_run (fuel steps : nat) (upperBound lgChain i : Z) : M unit :=
  if i <? upperBound then
    match steps with
    | O => out_of_fuel
    | S steps' =>
      let* calculatedLength := collatzChainLength_run fuel (wrap (i + 1)) in
      let* recorded := load (lgChain + 1) in
      let* _ := (if recorded <? calculatedLength
                 then let* _ := store lgChain (wrap (i + 1)) in
                      store (lgChain + 1) calculatedLength
                 else ret tt) in
      search_loop_run fuel steps' upperBound lgChain (wrap (i + 1))
    end
  else ret tt.

(** [lgChain[0] = lgChain[1] = 1] assigns [lgChain[1]] first. *)
Definition determineLongestChain_run (fuel : nat) (upperBound : Z) : M Z :=
  let* lgChain := malloc 2 in
  let* _ := store (lgChain + 1) 1 in
  let* _ := store lgChain 1 in
  let* _ := search_loop_run fuel fuel upperBound lgChain 0 in
  ret lgChain.

(** What a caller reads through the returned pointer: [result[0]] and
    [result[1]]. *)
Definition read_array (st : state) (p : Z) : option (Z * Z) :=
  match mem st !! p, mem st !! (p + 1) with
  | Some a, Some b => Some (a, b)
  | _, _ => None
  end.

(** The arguments of the calls to each function, in order. *)
Definition chain_calls (tr : list event) : list Z :=
  omap (fun e => match e with CallChainLength n => Some n | _ => None end) tr.

Definition nextTerm_calls (tr : list event) : list Z :=
  omap (fun e => match e with CallNextTerm t => Some t | _ => None end) tr.

(** The terms the [while] loop passes to [nextTerm] within its fuel. *)
Fixpoint loop_terms (fuel : nat) (n : Z) : list Z :=
  if 1 <? n then
    match fuel with
    | O => []
    | S fuel' => n :: loop_terms fuel' (nextTerm n)
    end
  else [].

(** A state to run examples from: nothing allocated, nothing called. *)
Definition initial_state : state := State ∅ 0 [].

(** ** A memoising search, for evaluating large searches

    The chain length of a candidate is found by walking its chain only
    until it falls below the candidate itself, where the table of the
    lengths found so far takes over.  It is proved below to compute
    what [determineLongestChain] computes. *)

Definition fast_next (n : Z) : Z :=
  if Z.odd n then
    let m := 3 * n + 1 in
    if m <? 4294967296 then m else m mod 4294967296
  else Z.div2 n.

(** [walk wfuel tbl i n c]: the number of loop iterations from [n], plus
    [c]; [tbl] holds that number for the candidates below [i]. *)
Fixpoint walk (wfuel : nat) (tbl : Pmap Z) (i n c : Z) : option Z :=
  if n <=? 1 then Some c
  else if n <? i then
    match tbl !! Z.to_pos n with
    | Some v => Some (c + v)
    | None => None
    end
  else
    match wfuel with
    | O => None
    | S wfuel' => walk wfuel' tbl i (fast_next n) (c + 1)
    end.

(** [memo_search wfuel limit count tbl i lg]: examine the [count]
    candidates from [i] on; gives up on a chain of [limit] steps or
    more. *)
Fixpoint memo_search (wfuel : nat) (limit : Z) (count : nat) (tbl : Pmap Z)
    (i : Z) (lgChain : Z * Z) : option (Z * Z) :=
  match count with
  | O => Some lgChain
  | S count' =>
    match walk wfuel tbl i i 0 with
    | None => None
    | Some v =>
      if v <? limit then
        memo_search wfuel limit count' (<[Z.to_pos i := v]> tbl) (i + 1)
          (if lgChain.2 <? 1 + v then (i, 1 + v) else lgChain)
      else None
    end
  end.

(** Every entry of the table is the number of loop iterations of its key. *)
Definition table_ok (tbl : Pmap Z) : Prop :=
  forall p v, tbl !! p = Some v ->
    exists k, chain_steps (Z.pos p) k /\ v = Z.of_nat k.

(** ** The entry point *)

(** [printf]'s [%d] reads the [unsigned int] it is handed as an [int]. *)
Definition as_int (z : Z) : Z :=
  if z <? 2 ^ (wordsize - 1) then z else z - modulus.

Definition newline : string :=
  String (Ascii.Ascii false true false true false false false false) EmptyString.

(** The line [main] prints for the array [result]. *)
Definition result_line (result : Z * Z) : string :=
  "Number with longest chain was " +:+ pretty (as_int result.1) +:+
  " with " +:+ pretty (as_int result.2) +:+ " terms." +:+ newline.

(** [main], as the text it prints and its exit status.  [atoi] is the
    C library's and is a parameter here; the [int] it returns is
    converted to [unsigned int] by the assignment to [upperBound]. *)
Definition main (atoi : string -> Z) (fuel : nat) (argc : Z) (argv : list string)
  : option (string * Z) :=
  let upperBound :=
    if argc =? 2 then wrap (atoi (default EmptyString (argv !! 1%nat)))
    else 1000000 in
  match determineLongestChain fuel upperBound with
  | Some result => Some (result_line result, 0)
  | None => None
  end.

(** ** Chains that stay within 32 bits *)

(** [agree_steps n k]: started with [n], the [while] loop runs its body
    [k] times and exits, and none of its steps overflows: every term is
    the Collatz step of the one before. *)
Inductive agree_steps : Z -> nat -> Prop :=
| agree_stop n : n <= 1 -> agree_steps n 0
| agree_next n k :
    1 < n -> nextTerm n = collatz_step n -> agree_steps (nextTerm n) k ->
    agree_steps n (S k).

(** [CollatzLength n r]: the Collatz chain of [n], on unbounded
    integers, has [r] terms. *)
Definition CollatzLength (n r : Z) : Prop :=
  exists fuel, collatz_length fuel n 1 = Some r.

(** The walk of the memoising search, giving up where [3n + 1] would
    not fit in 32 bits. *)
Fixpoint exact_walk (wfuel : nat) (tbl : Pmap Z) (i n c : Z) : option Z :=
  if n <=? 1 then Some c
  else if n <? i then
    match tbl !! Z.to_pos n with
    | Some v => Some (c + v)
    | None => None
    end
  else
    match wfuel with
    | O => None
    | S wfuel' =>
      if Z.odd n then
        if 3 * n + 1 <? 4294967296
        then exact_walk wfuel' tbl i (3 * n + 1) (c + 1)
        else None
      else exact_walk wfuel' tbl i (Z.div2 n) (c + 1)
    end.

(** [exact_scan wfuel limit count tbl i]: the chains of the [count]
    candidates from [i] on all stay within 32 bits and take fewer than
    [limit] steps. *)
Fixpoint exact_scan (wfuel : nat) (limit : Z) (count : nat) (tbl : Pmap Z) (i : Z)
  : bool :=
  match count with
  | O => true
  | S count' =>
    match exact_walk wfuel tbl i i 0 with
    | None => false
    | Some v =>
      (v <? limit) && exact_scan wfuel limit count' (<[Z.to_pos i := v]> tbl) (i + 1)
    end
  end.

Definition table_exact (tbl : Pmap Z) : Prop :=
  forall p v, tbl !! p = Some v ->
    exists k, agree_steps (Z.pos p) k /\ v = Z.of_nat k.

(** ** Machine integers: basic facts *)

Section Words.

Lemma modulus_eq : modulus = 4294967296.
Proof. reflexivity. Qed.

Lemma modulus_pos : 0 < modulus.
Proof. rewrite modulus_eq. lia. Qed.

Lemma wrap_uint z : uint (wrap z).
Proof. unfold uint, wrap. apply Z.mod_pos_bound, modulus_pos. Qed.

Lemma wrap_small z : uint z -> wrap z = z.
Proof. unfold uint, wrap. intros H. by apply Z.mod_small. Qed.

Lemma wrap_add_l a b : wrap (wrap a + b) = wrap (a + b).
Proof. unfold wrap. apply Zplus_mod_idemp_l. Qed.

Lemma wrap_succ_small z : 0 <= z < modulus - 1 -> wrap (z + 1) = z + 1.
Proof. intros H. apply wrap_small. unfold uint. lia. Qed.

End Words.

(** ** [nextTerm] *)

Section NextTerm.

Lemma nextTerm_even t : t mod 2 = 0 -> nextTerm t = t / 2.
Proof. unfold nextTerm. intros ->. reflexivity. Qed.

Lemma nextTerm_odd t : t mod 2 = 1 -> nextTerm t = wrap (3 * t + 1).
Proof. unfold nextTerm. intros ->. simpl. apply wrap_add_l. Qed.

Lemma parity_cases t : t mod 2 = 0 \/ t mod 2 = 1.
Proof. pose proof (Z.mod_pos_bound t 2). lia. Qed.

Lemma nextTerm_uint t : uint t -> uint (nextTerm t).
Proof.
  intros Ht. destruct (parity_cases t) as [He | Ho].
  - rewrite (nextTerm_even _ He). unfold uint in *.
    pose proof (Z.div_pos t 2). pose proof (Z.div_le_upper_bound t 2 t).
    lia.
  - rewrite (nextTerm_odd _ Ho). apply wrap_uint.
Qed.

Lemma nextTerm_collatz_step t :
  0 <= t -> 3 * t + 1 < modulus -> nextTerm t = collatz_step t.
Proof.
  intros H0 Hb. unfold collatz_step. rewrite Zodd_mod.
  destruct (parity_cases t) as [He | Ho].
  - rewrite (nextTerm_even _ He), He. reflexivity.
  - rewrite (nextTerm_odd _ Ho), Ho. simpl. apply wrap_small.
    unfold uint. lia.
Qed.

End NextTerm.

(** ** The [while] loop of [collatzChainLength] *)

Section ChainLoop.

Lemma chain_steps_det n k1 k2 :
  chain_steps n k1 -> chain_steps n k2 -> k1 = k2.
Proof.
  intros H1. revert k2.
  induction H1 as [n Hn | n k Hn _ IH]; intros k2 H2.
  - inversion H2; subst; [reflexivity | lia].
  - inversion H2; subst; [lia |]. f_equal. by apply IH.
Qed.

Lemma length_orbit k n : length (orbit k n) = k.
Proof. revert n. induction k as [| k IH]; intros n; simpl; [done |]. by rewrite IH. Qed.

(** Every term of the orbit still has a positive number of steps to
    go, and no more than the first one. *)
Lemma orbit_steps n k x :
  chain_steps n k -> x ∈ orbit k n ->
  exists k', (0 < k' <= k)%nat /\ chain_steps x k'.
Proof.
  induction 1 as [n Hn | n k Hn Hk IH]; simpl; intros Hx.
  - by apply elem_of_nil in Hx.
  - apply elem_of_cons in Hx as [-> | Hx].
    + exists (S k). split; [lia |]. by constructor.
    + destruct (IH Hx) as (k' & Hk' & Hs). exists k'. split; [lia | done].
Qed.

(** A loop that exits never sees the same term twice. *)
Lemma orbit_NoDup n k : chain_steps n k -> NoDup (orbit k n).
Proof.
  induction 1 as [n Hn | n k Hn Hk IH]; simpl.
  - constructor.
  - constructor; [| done]. intros Hin.
    destruct (orbit_steps _ _ _ Hk Hin) as (k' & Hk' & Hs).
    assert (S k = k') by (eapply chain_steps_det; [by constructor | done]).
    lia.
Qed.

Lemma orbit_range n k x :
  uint n -> chain_steps n k -> x ∈ orbit k n -> 2 <= x < modulus.
Proof.
  intros Hu Hk. revert Hu.
  induction Hk as [n Hn | n k Hn Hk IH]; simpl; intros Hu Hx.
  - by apply elem_of_nil in Hx.
  - apply elem_of_cons in Hx as [-> | Hx].
    + unfold uint in Hu. lia.
    + apply IH; [by apply nextTerm_uint | done].
Qed.

(** Pigeonhole: the terms visited are distinct values of [2 .. 2^32-1],
    so a loop that exits does so within [2^32 - 2] iterations. *)
Lemma chain_steps_bound n k :
  uint n -> chain_steps n k -> Z.of_nat k <= modulus - 2.
Proof.
  intros Hu Hk.
  assert (orbit k n ⊆+ seqZ 2 (modulus - 2)) as Hsub.
  { apply NoDup_submseteq; [by apply orbit_NoDup |].
    intros x Hx. apply elem_of_seqZ.
    pose proof (orbit_range _ _ _ Hu Hk Hx). lia. }
  apply submseteq_length in Hsub.
  rewrite length_orbit, length_seqZ in Hsub.
  pose proof modulus_pos. rewrite modulus_eq in *. lia.
Qed.

Lemma chain_loop_complete fuel n k c :
  chain_steps n k -> (k <= fuel)%nat -> uint c ->
  chain_loop fuel n c = Some (wrap (c + Z.of_nat k)).
Proof.
  intros Hk. revert fuel c.
  induction Hk as [n Hn | n k Hn Hk IH]; intros fuel c Hf Hc.
  - destruct fuel; simpl; (destruct (Z.ltb_spec 1 n); [lia |]);
      rewrite Z.add_0_r, wrap_small; done.
  - destruct fuel as [| fuel]; [lia |]. simpl.
    destruct (Z.ltb_spec 1 n); [| lia].
    rewrite IH; [| lia | apply wrap_uint].
    f_equal. rewrite wrap_add_l. f_equal. lia.
Qed.

Lemma chain_loop_sound fuel n c r :
  uint c -> chain_loop fuel n c = Some r ->
  exists k, (k <= fuel)%nat /\ chain_steps n k /\ r = wrap (c + Z.of_nat k).
Proof.
  revert n c. induction fuel as [| fuel IH]; intros n c Hc; simpl;
    destruct (Z.ltb_spec 1 n) as [Hn | Hn]; intros Hr; try discriminate.
  - injection Hr as <-. exists O. split; [lia |]. split; [by constructor |].
    by rewrite Z.add_0_r, wrap_small.
  - apply IH in Hr as (k & Hk & Hs & ->); [| apply wrap_uint].
    exists (S k). split; [lia |]. split; [by constructor |].
    rewrite wrap_add_l. f_equal. lia.
  - injection Hr as <-. exists O. split; [lia |]. split; [by constructor |].
    by rewrite Z.add_0_r, wrap_small.
Qed.

Lemma uint_1 : uint 1.
Proof. unfold uint. rewrite modulus_eq. lia. Qed.

(** The count never wraps: the call returns one more than the number
    of iterations of the loop. *)
Lemma collatzChainLength_complete fuel n k :
  uint n -> chain_steps n k -> (k <= fuel)%nat ->
  collatzChainLength fuel n = Some (1 + Z.of_nat k).
Proof.
  intros Hu Hk Hf. unfold collatzChainLength.
  pose proof (chain_steps_bound _ _ Hu Hk) as Hb.
  destruct (Z.ltb_spec 1 n) as [Hn | Hn].
  - rewrite (chain_loop_complete _ _ _ _ Hk Hf uint_1). f_equal.
    apply wrap_small. unfold uint. lia.
  - inversion Hk; subst; [done | lia].
Qed.

Lemma collatzChainLength_sound fuel n r :
  uint n -> collatzChainLength fuel n = Some r ->
  exists k, (k <= fuel)%nat /\ chain_steps n k /\ r = 1 + Z.of_nat k.
Proof.
  intros Hu. unfold collatzChainLength.
  destruct (Z.ltb_spec 1 n) as [Hn | Hn]; intros Hr.
  - apply chain_loop_sound in Hr as (k & Hf & Hk & ->); [| apply uint_1].
    exists k. split; [done |]. split; [done |].
    pose proof (chain_steps_bound _ _ Hu Hk).
    apply wrap_small. unfold uint. lia.
  - injection Hr as <-. exists O. split; [lia |]. split; [by constructor | done].
Qed.

Lemma collatzChainLength_mono fuel fuel' n r :
  uint n -> (fuel <= fuel')%nat ->
  collatzChainLength fuel n = Some r -> collatzChainLength fuel' n = Some r.
Proof.
  intros Hu Hf Hr.
  apply collatzChainLength_sound in Hr as (k & Hk & Hs & ->); [| done].
  apply collatzChainLength_complete; [done | done | lia].
Qed.

Lemma ChainLength_steps n r :
  uint n -> ChainLength n r <-> exists k, chain_steps n k /\ r = 1 + Z.of_nat k.
Proof.
  intros Hu. split.
  - intros [fuel Hr]. apply collatzChainLength_sound in Hr as (k & _ & Hk & ->); eauto.
  - intros (k & Hk & ->). exists k. by apply collatzChainLength_complete.
Qed.

Lemma ChainLength_det n r1 r2 :
  uint n -> ChainLength n r1 -> ChainLength n r2 -> r1 = r2.
Proof.
  intros Hu H1 H2.
  apply ChainLength_steps in H1 as (k1 & Hk1 & ->); [| done].
  apply ChainLength_steps in H2 as (k2 & Hk2 & ->); [| done].
  by rewrite (chain_steps_det _ _ _ Hk1 Hk2).
Qed.

End ChainLoop.

(** ** The [for] loop of [determineLongestChain] *)

Section SearchLoop.

Lemma search_loop_exit fuel steps ub i lg :
  ub <= i -> search_loop fuel steps ub i lg = Some lg.
Proof.
  intros Hi. destruct steps; simpl; by destruct (Z.ltb_spec i ub); [lia |].
Qed.

Lemma search_loop_iter fuel steps ub i lg :
  i < ub ->
  search_loop fuel (S steps) ub i lg =
  match collatzChainLength fuel (wrap (i + 1)) with
  | None => None
  | Some calculatedLength =>
    search_loop fuel steps ub (wrap (i + 1))
      (if lg.2 <? calculatedLength then (wrap (i + 1), calculatedLength) else lg)
  end.
Proof. intros Hi. simpl. by destruct (Z.ltb_spec i ub); [| lia]. Qed.

Lemma search_loop_out_of_steps fuel ub i lg :
  i < ub -> search_loop fuel 0 ub i lg = None.
Proof. intros Hi. simpl. by destruct (Z.ltb_spec i ub); [| lia]. Qed.

Lemma ChainLength_1 : ChainLength 1 1.
Proof. by exists O. Qed.

Lemma search_inv_init : search_inv 0 (1, 1).
Proof.
  unfold search_inv; simpl. split; [lia |]. split; [apply ChainLength_1 |].
  split; intros; lia.
Qed.

(** One iteration of the loop body keeps the invariant. *)
Lemma search_inv_step i lg c :
  0 <= i < modulus - 1 -> search_inv i lg -> ChainLength (i + 1) c ->
  search_inv (i + 1) (if lg.2 <? c then (i + 1, c) else lg).
Proof.
  intros Hi (Hb & Hl & Hmax & Hfirst) Hc.
  assert (uint (i + 1)) as Hu by (unfold uint; lia).
  destruct (Z.ltb_spec lg.2 c) as [Hlt | Hge]; unfold search_inv; simpl.
  - split; [lia |]. split; [done |]. split.
    + intros j r Hj Hr. destruct (decide (j = i + 1)) as [-> | Hne].
      * rewrite (ChainLength_det _ _ _ Hu Hr Hc). lia.
      * assert (r <= lg.2) by (apply (Hmax j); [lia | done]). lia.
    + intros j r Hj Hr.
      assert (r <= lg.2) by (apply (Hmax j); [lia | done]). lia.
  - split; [lia |]. split; [done |]. split; [| done].
    intros j r Hj Hr. destruct (decide (j = i + 1)) as [-> | Hne].
    + rewrite (ChainLength_det _ _ _ Hu Hr Hc). lia.
    + apply (Hmax j); [lia | done].
Qed.

Lemma search_loop_sound fuel ub steps i lg r :
  0 <= i <= ub -> ub < modulus -> search_inv i lg ->
  search_loop fuel steps ub i lg = Some r -> search_inv ub r.
Proof.
  intros Hi Hub. revert i lg Hi.
  induction steps as [| steps IH]; intros i lg Hi Hinv Hr.
  - destruct (decide (i = ub)) as [-> | Hne].
    + rewrite search_loop_exit in Hr; [| lia]. by injection Hr as <-.
    + rewrite search_loop_out_of_steps in Hr; [done | lia].
  - destruct (decide (i = ub)) as [-> | Hne].
    + rewrite search_loop_exit in Hr; [| lia]. by injection Hr as <-.
    + rewrite search_loop_iter in Hr; [| lia].
      rewrite wrap_succ_small in Hr; [| lia].
      destruct (collatzChainLength fuel (i + 1)) as [c |] eqn:Hc; [| done].
      apply IH in Hr; [done | lia |].
      apply search_inv_step; [lia | done | by exists fuel].
Qed.

Lemma search_loop_complete fuel ub steps i lg :
  0 <= i <= ub -> ub < modulus -> (Z.to_nat (ub - i) <= steps)%nat ->
  (forall j, i < j <= ub -> is_Some (collatzChainLength fuel j)) ->
  is_Some (search_loop fuel steps ub i lg).
Proof.
  intros Hi Hub. revert i lg Hi.
  induction steps as [| steps IH]; intros i lg Hi Hs Hall.
  - rewrite search_loop_exit; [done | lia].
  - destruct (decide (i = ub)) as [-> | Hne].
    + rewrite search_loop_exit; [done | lia].
    + rewrite search_loop_iter; [| lia].
      rewrite wrap_succ_small; [| lia].
      destruct (Hall (i + 1)) as [c ->]; [lia |].
      apply IH; [lia | lia |]. intros j Hj. apply Hall. lia.
Qed.

Lemma search_loop_calls_return fuel ub steps i lg r :
  0 <= i <= ub -> ub < modulus ->
  search_loop fuel steps ub i lg = Some r ->
  forall j, i < j <= ub -> is_Some (collatzChainLength fuel j).
Proof.
  intros Hi Hub. revert i lg Hi.
  induction steps as [| steps IH]; intros i lg Hi Hr j Hj.
  - rewrite search_loop_out_of_steps in Hr; [done | lia].
  - rewrite search_loop_iter in Hr by lia.
    rewrite wrap_succ_small in Hr by lia.
    destruct (collatzChainLength fuel (i + 1)) as [c |] eqn:Hc; [| done].
    destruct (decide (j = i + 1)) as [-> | Hne]; [by rewrite Hc |].
    apply (IH (i + 1) _ ltac:(lia) Hr). lia.
Qed.

Lemma search_loop_mono fuel fuel' ub steps steps' i lg r :
  (fuel <= fuel')%nat -> (steps <= steps')%nat ->
  search_loop fuel steps ub i lg = Some r ->
  search_loop fuel' steps' ub i lg = Some r.
Proof.
  intros Hf. revert steps' i lg.
  induction steps as [| steps IH]; intros steps' i lg Hs Hr.
  - destruct (Z.lt_ge_cases i ub) as [Hlt | Hge].
    + by rewrite search_loop_out_of_steps in Hr.
    + rewrite search_loop_exit in Hr |- *; done.
  - destruct (Z.lt_ge_cases i ub) as [Hlt | Hge].
    + destruct steps' as [| steps']; [lia |].
      rewrite search_loop_iter in Hr |- *; [| done | done].
      destruct (collatzChainLength fuel (wrap (i + 1))) as [c |] eqn:Hc; [| done].
      rewrite (collatzChainLength_mono _ _ _ _ (wrap_uint _) Hf Hc).
      apply IH; [lia | done].
    + rewrite search_loop_exit in Hr |- *; done.
Qed.

Lemma determineLongestChain_mono fuel fuel' ub r :
  (fuel <= fuel')%nat ->
  determineLongestChain fuel ub = Some r -> determineLongestChain fuel' ub = Some r.
Proof. intros Hf. unfold determineLongestChain. by apply search_loop_mono. Qed.

Lemma determineLongestChain_det fuel1 fuel2 ub r1 r2 :
  determineLongestChain fuel1 ub = Some r1 ->
  determineLongestChain fuel2 ub = Some r2 -> r1 = r2.
Proof.
  intros H1 H2.
  apply (determineLongestChain_mono _ (Nat.max fuel1 fuel2)) in H1; [| lia].
  apply (determineLongestChain_mono _ (Nat.max fuel1 fuel2)) in H2; [| lia].
  congruence.
Qed.

Lemma search_inv_first_longest ub bn bl :
  1 <= ub -> search_inv ub (bn, bl) -> first_longest ub bn bl.
Proof.
  unfold search_inv, first_longest; simpl. intros Hub (Hb & Hrest).
  split; [lia | done].
Qed.

(** What a search that returns has found. *)
Lemma determineLongestChain_sound fuel ub bn bl :
  1 <= ub < modulus ->
  determineLongestChain fuel ub = Some (bn, bl) -> first_longest ub bn bl.
Proof.
  intros Hub Hr. unfold determineLongestChain in Hr.
  apply search_inv_first_longest; [lia |].
  apply (search_loop_sound fuel ub fuel 0 (1, 1));
    [lia | lia | apply search_inv_init | done].
Qed.

(** If every candidate's chain computation exits, the search returns
    with any fuel from [2^32] on. *)
Lemma determineLongestChain_returns fuel ub :
  0 <= ub < modulus -> (Z.to_nat modulus <= fuel)%nat ->
  (forall i, 1 <= i <= ub -> exists r, ChainLength i r) ->
  is_Some (determineLongestChain fuel ub).
Proof.
  intros Hub Hf Hall. unfold determineLongestChain.
  apply search_loop_complete; [lia | lia | lia |].
  intros j Hj. destruct (Hall j) as [r Hr]; [lia |].
  assert (uint j) as Hu by (unfold uint; lia).
  apply ChainLength_steps in Hr as (k & Hk & ->); [| done].
  exists (1 + Z.of_nat k). apply collatzChainLength_complete; [done | done |].
  pose proof (chain_steps_bound _ _ Hu Hk). lia.
Qed.

End SearchLoop.

(** ** The machine-level functions compute what the value-level ones do *)

Section Machine.

Lemma chain_calls_app tr1 tr2 :
  chain_calls (tr1 ++ tr2) = chain_calls tr1 ++ chain_calls tr2.
Proof. apply omap_app. Qed.

Lemma nextTerm_calls_app tr1 tr2 :
  nextTerm_calls (tr1 ++ tr2) = nextTerm_calls tr1 ++ nextTerm_calls tr2.
Proof. apply omap_app. Qed.

Lemma chain_calls_nextTerm l : chain_calls (map CallNextTerm l) = [].
Proof. induction l as [| x l IH]; [done |]. simpl. apply IH. Qed.

Lemma nextTerm_calls_nextTerm l : nextTerm_calls (map CallNextTerm l) = l.
Proof. induction l as [| x l IH]; [done |]. simpl. f_equal. apply IH. Qed.

Lemma chain_loop_run_eq fuel n c st :
  chain_loop_run fuel n c st =
  (chain_loop fuel n c,
   State (mem st) (brk st) (trace st ++ map CallNextTerm (loop_terms fuel n))).
Proof.
  revert n c st. induction fuel as [| fuel IH]; intros n c [m b tr]; simpl;
    destruct (1 <? n); simpl; rewrite ?app_nil_r; try reflexivity.
  unfold bind, nextTerm_run, emit, ret; simpl.
  rewrite IH; simpl. by rewrite <- app_assoc.
Qed.

Lemma collatzChainLength_run_eq fuel n st :
  collatzChainLength_run fuel n st =
  (collatzChainLength fuel n,
   State (mem st) (brk st)
     (trace st ++ CallChainLength n :: map CallNextTerm (loop_terms fuel n))).
Proof.
  destruct st as [m b tr].
  unfold collatzChainLength_run, collatzChainLength, bind, emit; simpl.
  destruct (1 <? n) eqn:Hn.
  - rewrite chain_loop_run_eq; simpl. by rewrite <- app_assoc.
  - unfold ret. destruct fuel; simpl; by rewrite Hn.
Qed.

Lemma read_array_lookup st p lg :
  read_array st p = Some lg ->
  mem st !! p = Some lg.1 /\ mem st !! (p + 1) = Some lg.2.
Proof.
  unfold read_array.
  destruct (mem st !! p), (mem st !! (p + 1)); intros H; try discriminate.
  by injection H as <-.
Qed.

Lemma read_array_frame st st' p q lg :
  (forall a, a <> q -> a <> q + 1 -> mem st' !! a = mem st !! a) ->
  p <> q -> p <> q + 1 -> p + 1 <> q -> 
  read_array st p = Some lg -> read_array st' p = Some lg.
Proof.
  intros Hframe H1 H2 H3. unfold read_array.
  rewrite !Hframe; [done | lia | lia | done | done].
Qed.

(** The loop of the search, run on the array at [p], against the
    value-level loop run on the contents of the array: both run out of
    fuel or neither does, the array ends up holding the value-level
    result, no other word is written, and the calls to
    [collatzChainLength] are those for [i + 1], [i + 2], ... in turn. *)
Lemma search_loop_run_spec fuel ub p steps i lg st :
  0 <= i <= ub -> ub < modulus -> read_array st p = Some lg ->
  exists lg' j r st',
    search_loop_run fuel steps ub p i st = (r, st') /\
    brk st' = brk st /\
    (forall a, a <> p -> a <> p + 1 -> mem st' !! a = mem st !! a) /\
    read_array st' p = Some lg' /\
    0 <= j <= ub - i /\
    chain_calls (trace st') = chain_calls (trace st) ++ seqZ (i + 1) j /\
    ((r = Some tt /\ search_loop fuel steps ub i lg = Some lg' /\ j = ub - i) \/
     (r = None /\ search_loop fuel steps ub i lg = None)).
Proof.
  intros Hi Hub. revert i lg st Hi.
  induction steps as [| steps IH]; intros i lg st Hi Harr.
  - exists lg, 0. simpl. destruct (Z.ltb_spec i ub) as [Hlt | Hge].
    + exists None, st. rewrite app_nil_r. repeat split; auto; lia.
    + exists (Some tt), st. rewrite app_nil_r.
      repeat split; auto; try lia. left. repeat split; auto; lia.
  - destruct (Z.ltb_spec i ub) as [Hlt | Hge]; cycle 1.
    { exists lg, 0, (Some tt), st. simpl.
      destruct (Z.ltb_spec i ub); [lia |]. rewrite app_nil_r.
      repeat split; auto; try lia. left. repeat split; auto; lia. }
    rewrite search_loop_iter by done.
    simpl. destruct (Z.ltb_spec i ub); [| lia].
    rewrite wrap_succ_small by lia.
    unfold bind at 1. rewrite collatzChainLength_run_eq.
    set (st1 := State _ _ _).
    assert (chain_calls (trace st1) = chain_calls (trace st) ++ [i + 1]) as Htr1.
    { unfold st1; simpl. rewrite chain_calls_app. simpl.
      by rewrite chain_calls_nextTerm. }
    destruct (collatzChainLength fuel (i + 1)) as [c |].
    + destruct (read_array_lookup _ _ _ Harr) as [Hp0 Hp1].
      unfold bind at 1, load. simpl mem. rewrite Hp1. simpl default.
      set (lg2 := if lg.2 <? c then (i + 1, c) else lg).
      set (st2 := if lg.2 <? c
                  then State (<[p + 1 := c]> (<[p := i + 1]> (mem st))) (brk st) (trace st1)
                  else st1).
      assert ((let* _ := if lg.2 <? c
                         then let* _ := store p (i + 1) in store (p + 1) c
                         else ret tt in
               search_loop_run fuel steps ub p (i + 1)) st1 =
              search_loop_run fuel steps ub p (i + 1) st2) as ->.
      { unfold st2. destruct (lg.2 <? c); reflexivity. }
      assert (read_array st2 p = Some lg2) as Harr2.
      { unfold st2, lg2, read_array. destruct (lg.2 <? c); simpl.
        - rewrite lookup_insert_ne by lia. rewrite !lookup_insert_eq. done.
        - rewrite Hp0, Hp1. by destruct lg. }
      assert (brk st2 = brk st) as Hbrk2 by (unfold st2; by destruct (lg.2 <? c)).
      assert (trace st2 = trace st1) as Htr2 by (unfold st2; by destruct (lg.2 <? c)).
      assert (forall a, a <> p -> a <> p + 1 -> mem st2 !! a = mem st !! a) as Hfr2.
      { intros a Ha1 Ha2. unfold st2. destruct (lg.2 <? c); simpl; [| done].
        by rewrite !lookup_insert_ne. }
      destruct (IH (i + 1) lg2 st2) as (lg' & j & r & st' & Hrun & Hb & Hfr & Ha & Hj & Htr & Hres);
        [lia | done |].
      exists lg', (j + 1), r, st'. split; [done |]. split; [congruence |].
      split; [intros a Ha1 Ha2; rewrite Hfr by done; by apply Hfr2 |].
      split; [done |]. split; [lia |]. split.
      * rewrite Htr, Htr2, Htr1, <- app_assoc. f_equal.
        rewrite (seqZ_cons (i + 1) (j + 1)) by lia.
        simpl. do 2 f_equal; lia.
      * destruct Hres as [(-> & Hs & ->) | (-> & Hs)]; [left | right];
          repeat split; auto; lia.
    + exists lg, 1, None, st1. split; [done |]. split; [done |].
      split; [done |]. split; [by unfold read_array in *; simpl |].
      split; [lia |]. split; [| by right].
      rewrite Htr1. f_equal.
Qed.

Lemma determineLongestChain_run_spec fuel ub st :
  0 <= ub < modulus ->
  exists lg' j r st',
    determineLongestChain_run fuel ub st = (r, st') /\
    brk st' = brk st + 2 /\
    (forall a, a <> brk st -> a <> brk st + 1 -> mem st' !! a = mem st !! a) /\
    read_array st' (brk st) = Some lg' /\
    0 <= j <= ub /\
    chain_calls (trace st') = chain_calls (trace st) ++ seqZ 1 j /\
    ((r = Some (brk st) /\ determineLongestChain fuel ub = Some lg' /\ j = ub) \/
     (r = None /\ determineLongestChain fuel ub = None)).
Proof.
  intros Hub. unfold determineLongestChain_run, determineLongestChain.
  unfold bind at 1, malloc. unfold bind at 1, store. simpl.
  unfold bind at 1. simpl.
  set (st0 := State _ _ _).
  assert (read_array st0 (brk st) = Some (1, 1)) as Harr.
  { unfold read_array, st0; simpl.
    rewrite lookup_insert_eq, lookup_insert_ne by lia.
    by rewrite lookup_insert_eq. }
  destruct (search_loop_run_spec fuel ub (brk st) fuel 0 (1, 1) st0)
    as (lg' & j & r & st' & Hrun & Hb & Hfr & Ha & Hj & Htr & Hres);
    [lia | lia | done |].
  unfold bind. rewrite Hrun.
  exists lg', j.
  destruct Hres as [(-> & Hs & ->) | (-> & Hs)].
  - exists (Some (brk st)), st'. unfold ret.
    split; [done |]. split; [by rewrite Hb |]. split.
    { intros a Ha1 Ha2. rewrite Hfr by done. unfold st0; simpl.
      by rewrite !lookup_insert_ne. }
    split; [done |]. split; [lia |]. split; [by rewrite Htr |].
    left. split; [done |]. split; [done | lia].
  - exists None, st'.
    split; [done |]. split; [by rewrite Hb |]. split.
    { intros a Ha1 Ha2. rewrite Hfr by done. unfold st0; simpl.
      by rewrite !lookup_insert_ne. }
    split; [done |]. split; [lia |]. split; [by rewrite Htr |].
    by right.
Qed.

(** A search whose value-level counterpart returns does return, having
    called [collatzChainLength] for each of [1 .. upperBound] in turn. *)
Lemma determineLongestChain_run_returns fuel ub st :
  0 <= ub < modulus -> is_Some (determineLongestChain fuel ub) ->
  is_Some (determineLongestChain_run fuel ub st).1 /\
  chain_calls (trace (determineLongestChain_run fuel ub st).2) =
    chain_calls (trace st) ++ seqZ 1 ub.
Proof.
  intros Hub [lg Hlg].
  destruct (determineLongestChain_run_spec fuel ub st Hub)
    as (lg' & j & r & st' & -> & _ & _ & _ & Hj & Htr & Hres).
  simpl. destruct Hres as [(-> & _ & ->) | (_ & Hnone)]; [done | congruence].
Qed.

End Machine.

(** ** The memoising search computes what [determineLongestChain] does *)

Section Memo.

Lemma fast_next_eq n : 0 <= n -> fast_next n = nextTerm n.
Proof.
  intros Hn. unfold fast_next. rewrite Zodd_mod.
  destruct (parity_cases n) as [He | Ho].
  - rewrite (nextTerm_even _ He), He. simpl. apply Z.div2_div.
  - rewrite (nextTerm_odd _ Ho), Ho. simpl. unfold wrap. rewrite modulus_eq.
    destruct (Z.ltb_spec (3 * n + 1) 4294967296); [| done].
    symmetry. apply Z.mod_small. lia.
Qed.

Lemma walk_sound wfuel tbl i n c v :
  table_ok tbl -> uint n -> walk wfuel tbl i n c = Some v ->
  exists k, chain_steps n k /\ v = c + Z.of_nat k.
Proof.
  intros Htbl. revert n c.
  induction wfuel as [| wfuel IH]; intros n c Hu; simpl;
    destruct (Z.leb_spec n 1) as [Hle | Hgt].
  - intros [= <-]. exists O. split; [by constructor | lia].
  - destruct (n <? i); [| done].
    destruct (tbl !! Z.to_pos n) as [v0 |] eqn:Hlook; [| done].
    intros [= <-]. destruct (Htbl _ _ Hlook) as (k & Hk & ->).
    rewrite Z2Pos.id in Hk by lia. by exists k.
  - intros [= <-]. exists O. split; [by constructor | lia].
  - destruct (n <? i).
    + destruct (tbl !! Z.to_pos n) as [v0 |] eqn:Hlook; [| done].
      intros [= <-]. destruct (Htbl _ _ Hlook) as (k & Hk & ->).
      rewrite Z2Pos.id in Hk by lia. by exists k.
    + rewrite fast_next_eq by (unfold uint in Hu; lia).
      intros Hw. apply IH in Hw as (k & Hk & ->); [| by apply nextTerm_uint].
      exists (S k). split; [by constructor | lia].
Qed.

Lemma table_ok_empty : table_ok ∅.
Proof. intros p v Hp. by rewrite lookup_empty in Hp. Qed.

Lemma table_ok_insert tbl i k :
  0 < i -> table_ok tbl -> chain_steps i k ->
  table_ok (<[Z.to_pos i := Z.of_nat k]> tbl).
Proof.
  intros Hi Htbl Hk p v Hp.
  apply lookup_insert_Some in Hp as [[<- <-] | [_ Hp]].
  - exists k. by rewrite Z2Pos.id.
  - by apply Htbl.
Qed.

Lemma memo_search_sound wfuel limit fuel count tbl i lg r steps :
  table_ok tbl -> 1 <= i -> i - 1 + Z.of_nat count < modulus ->
  limit <= Z.of_nat fuel -> (count <= steps)%nat ->
  memo_search wfuel limit count tbl i lg = Some r ->
  search_loop fuel steps (i - 1 + Z.of_nat count) (i - 1) lg = Some r.
Proof.
  intros Htbl Hi Hub Hlim. revert tbl i lg steps Htbl Hi Hub.
  induction count as [| count IH]; intros tbl i lg steps Htbl Hi Hub Hs; simpl memo_search.
  - intros [= <-]. apply search_loop_exit. lia.
  - destruct (walk wfuel tbl i i 0) as [v |] eqn:Hw; [| done].
    destruct (Z.ltb_spec v limit) as [Hv |]; [| done].
    assert (uint i) as Hu by (unfold uint; lia).
    apply walk_sound in Hw as (k & Hk & ->); [| done | done].
    rewrite Z.add_0_l in *.
    intros Hm. destruct steps as [| steps]; [lia |].
    rewrite search_loop_iter by lia.
    rewrite wrap_succ_small by lia.
    replace (i - 1 + 1) with i by lia.
    rewrite (collatzChainLength_complete fuel i k) by (done || lia).
    apply (IH _ _ _ steps) in Hm; [| by apply table_ok_insert; [lia | |] | lia | lia | lia].
    replace (i + 1 - 1 + Z.of_nat count) with (i - 1 + Z.of_nat (S count)) in Hm by lia.
    by replace (i + 1 - 1) with i in Hm by lia.
Qed.

(** The search over the first million candidates, evaluated. *)
Lemma memo_search_million :
  memo_search 1000 1000 (Z.to_nat 1000000) ∅ 1 (1, 1) = Some (837799, 525).
Proof. vm_compute. reflexivity. Qed.

Lemma search_loop_million fuel :
  (Z.to_nat 1000000 <= fuel)%nat ->
  search_loop fuel fuel 1000000 0 (1, 1) = Some (837799, 525).
Proof.
  intros Hf.
  pose proof (memo_search_sound 1000 1000 fuel (Z.to_nat 1000000) ∅ 1 (1, 1)
                (837799, 525) fuel table_ok_empty) as H.
  rewrite Z2Nat.id in H by lia.
  change (1 - 1 + 1000000) with 1000000 in H. change (1 - 1) with 0 in H.
  apply H; [lia | rewrite modulus_eq; lia | lia | done | apply memo_search_million].
Qed.

(** The chain computation of every candidate up to a million returns:
    none of them is caught in a cycle of the 32-bit arithmetic. *)
Lemma ChainLength_returns_to_million i :
  1 <= i <= 1000000 -> exists r, ChainLength i r.
Proof.
  intros Hi. remember (Z.to_nat 1000000) as fuel eqn:Hfuel.
  assert (Z.to_nat 1000000 <= fuel)%nat as Hf by lia.
  pose proof (search_loop_million fuel Hf) as Hs.
  destruct (search_loop_calls_return fuel 1000000 fuel 0 (1, 1) _
              ltac:(lia) ltac:(rewrite modulus_eq; lia) Hs i ltac:(lia)) as [r Hr].
  exists r. by exists fuel.
Qed.

(** The searches up to a million all return, given fuel for a million
    iterations. *)
Lemma determineLongestChain_returns_to_million fuel ub :
  0 <= ub <= 1000000 -> (Z.to_nat 1000000 <= fuel)%nat ->
  is_Some (determineLongestChain fuel ub).
Proof.
  intros Hub Hf. pose proof (search_loop_million fuel Hf) as Hm.
  unfold determineLongestChain.
  apply search_loop_complete; [lia | rewrite modulus_eq; lia | lia |].
  intros j Hj.
  apply (search_loop_calls_return fuel 1000000 fuel 0 (1, 1) _
           ltac:(lia) ltac:(rewrite modulus_eq; lia) Hm). lia.
Qed.

End Memo.

(** ** Chains that reach 1 *)

Section Reaches.

(** A chain that reaches 1 makes the loop exit, within as many steps. *)
Lemma reaches_one_steps k n :
  Nat.iter k nextTerm n = 1 -> exists k', (k' <= k)%nat /\ chain_steps n k'.
Proof.
  revert n. induction k as [| k IH]; intros n Hk.
  - simpl in Hk. subst. exists O. split; [lia | by constructor].
  - destruct (Z.le_gt_cases n 1) as [Hle | Hgt].
    + exists O. split; [lia | by constructor].
    + rewrite Nat.iter_succ_r in Hk. apply IH in Hk as (k' & Hk' & Hs).
      exists (S k'). split; [lia | by constructor].
Qed.

Lemma collatzChainLength_low fuel n : n <= 1 -> collatzChainLength fuel n = Some 1.
Proof. intros Hn. unfold collatzChainLength. by destruct (Z.ltb_spec 1 n); [lia |]. Qed.

Lemma loop_terms_low fuel n : n <= 1 -> loop_terms fuel n = [].
Proof. intros Hn. destruct fuel; simpl; by destruct (Z.ltb_spec 1 n); [lia |]. Qed.

End Reaches.

(** * The claims *)

(** C1, as stated, fails at [upperBound = 0]: the search returns
    [(1, 1)], and 1 is not one of the candidates [1 .. 0], of which
    there are none. *)
Lemma determineLongestChain_zero_not_first_longest :
  (forall fuel, determineLongestChain fuel 0 = Some (1, 1)) /\
  ~ first_longest 0 1 1.
Proof.
  split.
  - intros fuel. unfold determineLongestChain. by apply search_loop_exit.
  - intros [Hb _]. lia.
Qed.

(** C1 (amended).  For every [upperBound] from 1 on such that the chain
    computation of each candidate [1 .. upperBound] returns, the search
    returns a pair [(bestNumber, bestLength)], the same for every
    sufficient fuel, where [bestLength] is the greatest chain length
    among the candidates and [bestNumber] is the first candidate, in the
    order [1, 2, ..., upperBound], whose chain has that length: every
    candidate before it has a strictly shorter chain. *)
Theorem determineLongestChain_first_longest ub :
  1 <= ub < modulus ->
  (forall i, 1 <= i <= ub -> exists r, ChainLength i r) ->
  exists bn bl,
    (forall fuel, (Z.to_nat modulus <= fuel)%nat ->
       determineLongestChain fuel ub = Some (bn, bl)) /\
    (forall fuel r, determineLongestChain fuel ub = Some r -> r = (bn, bl)) /\
    first_longest ub bn bl.
Proof.
  intros Hub Hall.
  remember (Z.to_nat modulus) as fuel0 eqn:Hfuel0.
  destruct (determineLongestChain_returns fuel0 ub)
    as [[bn bl] Hr]; [lia | lia | done |].
  exists bn, bl. split; [| split].
  - intros fuel Hf. apply (determineLongestChain_mono fuel0); [lia | done].
  - intros fuel r Hr'. apply (determineLongestChain_det _ _ _ _ _ Hr' Hr).
  - apply (determineLongestChain_sound fuel0); [lia | done].
Qed.

Lemma determineLongestChain_first_longest_witness :
  exists bn bl,
    (forall fuel, (Z.to_nat modulus <= fuel)%nat ->
       determineLongestChain fuel 7 = Some (bn, bl)) /\
    (forall fuel r, determineLongestChain fuel 7 = Some r -> r = (bn, bl)) /\
    first_longest 7 bn bl.
Proof.
  apply (determineLongestChain_first_longest 7).
  - rewrite modulus_eq. lia.
  - intros i Hi.
    assert (i = 1 \/ i = 2 \/ i = 3 \/ i = 4 \/ i = 5 \/ i = 6 \/ i = 7)
      as Hcases by lia.
    destruct Hcases as [-> | [-> | [-> | [-> | [-> | [-> | ->]]]]]];
      eexists; exists 16%nat; vm_compute; reflexivity.
Defined.

(** C2, as stated, fails at the odd term [1431655765]: there [3t + 1]
    is [2^32], which an [unsigned int] does not hold, and [nextTerm]
    returns 0. *)
Lemma nextTerm_not_3t_plus_1 :
  1 <= 1431655765 < modulus /\ Z.odd 1431655765 = true /\
  nextTerm 1431655765 = 0 /\ nextTerm 1431655765 <> 3 * 1431655765 + 1.
Proof. by vm_compute. Qed.

(** C2 (amended).  For every unsigned term [t >= 1], [nextTerm t] is
    [t / 2] (the remainder discarded) when [t] is even and [3t + 1]
    reduced modulo [2^32] when [t] is odd; this is [3t + 1] itself
    whenever [3t + 1 < 2^32].  There is no error condition. *)
Theorem nextTerm_contract t :
  1 <= t < modulus ->
  nextTerm t = (if Z.odd t then (3 * t + 1) mod modulus else t / 2) /\
  (3 * t + 1 < modulus -> nextTerm t = if Z.odd t then 3 * t + 1 else t / 2).
Proof.
  intros Ht. rewrite Zodd_mod.
  destruct (parity_cases t) as [He | Ho].
  - rewrite (nextTerm_even _ He), He. by simpl.
  - rewrite (nextTerm_odd _ Ho), Ho. simpl. split; [done |].
    intros Hb. apply wrap_small. unfold uint. lia.
Qed.

Lemma nextTerm_contract_witness :
  nextTerm 7 = (if Z.odd 7 then (3 * 7 + 1) mod modulus else 7 / 2) /\
  (3 * 7 + 1 < modulus -> nextTerm 7 = if Z.odd 7 then 3 * 7 + 1 else 7 / 2).
Proof. apply (nextTerm_contract 7). rewrite modulus_eq. lia. Defined.

(** C3.  The search over [upperBound = 1000000] returns exactly
    [(837799, 525)], with any fuel that lets its million iterations
    run. *)
Theorem determineLongestChain_million fuel :
  (Z.to_nat 1000000 <= fuel)%nat ->
  determineLongestChain fuel 1000000 = Some (837799, 525).
Proof.
  intros Hf. unfold determineLongestChain. by apply search_loop_million.
Qed.

Lemma determineLongestChain_million_witness :
  determineLongestChain (Z.to_nat 1000000) 1000000 = Some (837799, 525).
Proof. apply (determineLongestChain_million (Z.to_nat 1000000)). lia. Defined.

(** C4 (the code breaks it).  Candidate 159487, well inside the default
    search range, has the chain term [1699000271], for which [3t + 1]
    is [5097000814]: more than an [unsigned int] holds.  [nextTerm]
    returns [802033518] instead, and the chain length the program
    computes for the candidate is 246, where the Collatz chain of
    159487 has 184 terms. *)
Theorem chain_of_159487_wraps :
  Nat.iter 59 nextTerm 159487 = 1699000271 /\
  1699000271 ∈ loop_terms 300 159487 /\
  3 * 1699000271 + 1 = 5097000814 /\ modulus <= 5097000814 /\
  nextTerm 1699000271 = 802033518 /\
  collatz_step 1699000271 = 5097000814 /\
  collatzChainLength 300 159487 = Some 246 /\
  collatz_length 300 159487 1 = Some 184.
Proof.
  split; [by vm_compute |]. split.
  - apply list_elem_of_lookup. exists 59%nat. by vm_compute.
  - by vm_compute.
Qed.

(** C5.  For every [n >= 1] whose chain reaches 1, [collatzChainLength]
    returns, and what it returns is at least 1; and on 1 it returns 1
    with any fuel, the only call recorded being the one to
    [collatzChainLength] itself: [nextTerm] is not invoked. *)
Theorem collatzChainLength_at_least_1 n k :
  1 <= n < modulus -> Nat.iter k nextTerm n = 1 ->
  (exists r, collatzChainLength k n = Some r /\ 1 <= r) /\
  (forall fuel r, collatzChainLength fuel n = Some r -> 1 <= r) /\
  (forall fuel, collatzChainLength fuel 1 = Some 1) /\
  (forall fuel st,
     collatzChainLength_run fuel 1 st =
     (Some 1, State (mem st) (brk st) (trace st ++ [CallChainLength 1])) /\
     nextTerm_calls (trace (collatzChainLength_run fuel 1 st).2) =
     nextTerm_calls (trace st)).
Proof.
  intros Hn Hk. assert (uint n) as Hu by (unfold uint; lia).
  split; [| split; [| split]].
  - apply reaches_one_steps in Hk as (k' & Hk' & Hs).
    exists (1 + Z.of_nat k'). split; [| lia].
    by apply collatzChainLength_complete.
  - intros fuel r Hr.
    apply collatzChainLength_sound in Hr as (k' & _ & _ & ->); [lia | done].
  - intros fuel. by apply collatzChainLength_low.
  - intros fuel st. rewrite collatzChainLength_run_eq.
    rewrite collatzChainLength_low, loop_terms_low by lia. simpl.
    split; [done |]. rewrite nextTerm_calls_app. simpl. by rewrite app_nil_r.
Qed.

Lemma collatzChainLength_at_least_1_witness :
  (exists r, collatzChainLength 16 7 = Some r /\ 1 <= r) /\
  (forall fuel r, collatzChainLength fuel 7 = Some r -> 1 <= r) /\
  (forall fuel, collatzChainLength fuel 1 = Some 1) /\
  (forall fuel st,
     collatzChainLength_run fuel 1 st =
     (Some 1, State (mem st) (brk st) (trace st ++ [CallChainLength 1])) /\
     nextTerm_calls (trace (collatzChainLength_run fuel 1 st).2) =
     nextTerm_calls (trace st)).
Proof.
  apply (collatzChainLength_at_least_1 7 16).
  - rewrite modulus_eq. lia.
  - vm_compute. reflexivity.
Defined.

(** C6.  For every [n > 1] whose chain reaches 1, [collatzChainLength n]
    is one more than [collatzChainLength (nextTerm n)]; both calls
    return. *)
Theorem collatzChainLength_step n k :
  1 < n < modulus -> Nat.iter k nextTerm n = 1 ->
  exists r,
    collatzChainLength k (nextTerm n) = Some r /\
    collatzChainLength k n = Some (1 + r).
Proof.
  intros Hn Hk. assert (uint n) as Hu by (unfold uint; lia).
  apply reaches_one_steps in Hk as (k' & Hk' & Hs).
  inversion Hs as [| n' k'' _ Hs']; subst; [lia |].
  exists (1 + Z.of_nat k''). split.
  - apply collatzChainLength_complete; [by apply nextTerm_uint | done | lia].
  - rewrite (collatzChainLength_complete k n (S k'')) by done. f_equal. lia.
Qed.

Lemma collatzChainLength_step_witness :
  exists r,
    collatzChainLength 16 (nextTerm 7) = Some r /\
    collatzChainLength 16 7 = Some (1 + r).
Proof.
  apply (collatzChainLength_step 7 16).
  - rewrite modulus_eq. lia.
  - vm_compute. reflexivity.
Defined.

(** C7.  Whatever the fuel, the calls that a search makes to
    [collatzChainLength] are for [1, 2, ..., j] in this order, for some
    [j <= upperBound]: every argument is at least 1, never 0.  The
    search returns, and has then made exactly [upperBound] calls, those
    for [1, 2, ..., upperBound]: with fuel from [2^32] on when the chain
    computation of every candidate returns, and with fuel for a million
    iterations for every [upperBound] up to a million. *)
Theorem determineLongestChain_candidates fuel ub st :
  0 <= ub < modulus ->
  (exists j,
     0 <= j <= ub /\
     chain_calls (trace (determineLongestChain_run fuel ub st).2) =
       chain_calls (trace st) ++ seqZ 1 j /\
     (forall n, n ∈ seqZ 1 j -> 1 <= n <= ub) /\
     (is_Some (determineLongestChain_run fuel ub st).1 ->
      j = ub /\ length (seqZ 1 j) = Z.to_nat ub)) /\
  ((Z.to_nat modulus <= fuel)%nat ->
   (forall i, 1 <= i <= ub -> exists r, ChainLength i r) ->
   is_Some (determineLongestChain_run fuel ub st).1 /\
   chain_calls (trace (determineLongestChain_run fuel ub st).2) =
     chain_calls (trace st) ++ seqZ 1 ub /\
   length (seqZ 1 ub) = Z.to_nat ub /\
   (forall n, n ∈ seqZ 1 ub -> 1 <= n <= ub)) /\
  ((Z.to_nat 1000000 <= fuel)%nat -> ub <= 1000000 ->
   is_Some (determineLongestChain_run fuel ub st).1 /\
   chain_calls (trace (determineLongestChain_run fuel ub st).2) =
     chain_calls (trace st) ++ seqZ 1 ub /\
   length (seqZ 1 ub) = Z.to_nat ub /\
   (forall n, n ∈ seqZ 1 ub -> 1 <= n <= ub)).
Proof.
  intros Hub.
  assert (forall n, n ∈ seqZ 1 ub -> 1 <= n <= ub) as Hrange
    by (intros n Hin; apply elem_of_seqZ in Hin; lia).
  split; [| split].
  - destruct (determineLongestChain_run_spec fuel ub st Hub)
      as (lg' & j & r & st' & -> & _ & _ & _ & Hj & Htr & Hres).
    exists j. simpl. split; [done |]. split; [done |]. split.
    + intros n Hin. apply elem_of_seqZ in Hin. lia.
    + intros [p Hp]. destruct Hres as [(_ & _ & ->) | (-> & _)]; [| done].
      by rewrite length_seqZ.
  - intros Hf Hall.
    destruct (determineLongestChain_run_returns fuel ub st Hub) as [Hs Htr];
      [by apply determineLongestChain_returns |].
    by rewrite length_seqZ.
  - intros Hf Hmillion.
    destruct (determineLongestChain_run_returns fuel ub st Hub) as [Hs Htr];
      [apply determineLongestChain_returns_to_million; [lia | done] |].
    by rewrite length_seqZ.
Qed.

Lemma determineLongestChain_candidates_witness :
  is_Some (determineLongestChain_run (Z.to_nat 1000000) 7 initial_state).1 /\
  chain_calls
    (trace (determineLongestChain_run (Z.to_nat 1000000) 7 initial_state).2) =
    chain_calls (trace initial_state) ++ seqZ 1 7 /\
  length (seqZ 1 7) = Z.to_nat 7 /\
  (forall n, n ∈ seqZ 1 7 -> 1 <= n <= 7).
Proof.
  destruct (determineLongestChain_candidates (Z.to_nat 1000000) 7 initial_state)
    as (_ & _ & Hreturns); [rewrite modulus_eq; lia |].
  apply Hreturns; lia.
Defined.

(** C8.  With [upperBound = 0] the search returns, with any fuel, the
    initial pair [(1, 1)]: a pointer to a fresh array holding 1 and 1.
    No candidate is examined: the record of calls is unchanged. *)
Theorem determineLongestChain_zero fuel st :
  determineLongestChain fuel 0 = Some (1, 1) /\
  exists st',
    determineLongestChain_run fuel 0 st = (Some (brk st), st') /\
    read_array st' (brk st) = Some (1, 1) /\
    trace st' = trace st.
Proof.
  split.
  - unfold determineLongestChain. by apply search_loop_exit.
  - eexists. split; [by destruct fuel |]. split; [| done].
    unfold read_array; simpl.
    rewrite lookup_insert_eq, lookup_insert_ne by lia.
    by rewrite lookup_insert_eq.
Qed.

(** C9.  Two invocations of the search with the same [upperBound]
    return arrays with the same contents, whatever the states they
    start in and the fuel they are given: nothing a call leaves behind
    is read by a later call.  When the second call follows the first,
    it returns a different array and leaves that of the first as it was. *)
Theorem determineLongestChain_deterministic fuel1 fuel2 ub sta stb pa pb sta' stb' :
  0 <= ub < modulus ->
  determineLongestChain_run fuel1 ub sta = (Some pa, sta') ->
  determineLongestChain_run fuel2 ub stb = (Some pb, stb') ->
  exists lg,
    read_array sta' pa = Some lg /\ read_array stb' pb = Some lg /\
    (stb = sta' -> pb <> pa /\ read_array stb' pa = Some lg).
Proof.
  intros Hub Ha Hb.
  destruct (determineLongestChain_run_spec fuel1 ub sta Hub)
    as (lga & ja & ra & sta2 & Hruna & Hbrka & _ & Harra & _ & _ & Hresa).
  destruct (determineLongestChain_run_spec fuel2 ub stb Hub)
    as (lgb & jb & rb & stb2 & Hrunb & Hbrkb & Hfrb & Harrb & _ & _ & Hresb).
  rewrite Ha in Hruna. rewrite Hb in Hrunb.
  injection Hruna as <- <-. injection Hrunb as <- <-.
  destruct Hresa as [(Hpa & Hda & _) | (? & _)]; [| done].
  destruct Hresb as [(Hpb & Hdb & _) | (? & _)]; [| done].
  injection Hpa as ->. injection Hpb as ->.
  assert (lga = lgb) as <- by apply (determineLongestChain_det _ _ _ _ _ Hda Hdb).
  exists lga. split; [done |]. split; [done |].
  intros ->. split; [lia |].
  apply (read_array_frame sta' stb' _ (brk sta')); [done | lia | lia | lia | done].
Qed.

Lemma determineLongestChain_deterministic_witness :
  exists lg,
    read_array (determineLongestChain_run 20 7 initial_state).2 0 = Some lg /\
    read_array
      (determineLongestChain_run 30 7
         (determineLongestChain_run 20 7 initial_state).2).2 2 = Some lg /\
    ((determineLongestChain_run 20 7 initial_state).2 =
     (determineLongestChain_run 20 7 initial_state).2 ->
     2 <> 0 /\
     read_array
       (determineLongestChain_run 30 7
          (determineLongestChain_run 20 7 initial_state).2).2 0 = Some lg).
Proof.
  apply (determineLongestChain_deterministic 20 30 7 initial_state
           (determineLongestChain_run 20 7 initial_state).2).
  - rewrite modulus_eq. lia.
  - vm_compute. reflexivity.
  - vm_compute. reflexivity.
Defined.

(** C10.  On the input 0, [collatzChainLength] returns 1 with any fuel,
    zero included: the guard [number > 1] skips the loop, and [nextTerm]
    is not invoked. *)
Theorem collatzChainLength_zero fuel st :
  collatzChainLength fuel 0 = Some 1 /\
  collatzChainLength_run fuel 0 st =
  (Some 1, State (mem st) (brk st) (trace st ++ [CallChainLength 0])).
Proof.
  split; [by apply collatzChainLength_low |].
  rewrite collatzChainLength_run_eq.
  by rewrite collatzChainLength_low, loop_terms_low by lia.
Qed.

(** * Further properties of the code *)

(** ** [nextTerm] *)

(** X1.  [nextTerm] gives 0 on two unsigned terms only: on 0, and on
    [1431655765], where [3t + 1] is exactly [2^32]. *)
Theorem nextTerm_zero_iff t :
  uint t -> nextTerm t = 0 <-> t = 0 \/ t = 1431655765.
Proof.
  intros Hu. unfold uint in Hu. rewrite modulus_eq in Hu.
  destruct (parity_cases t) as [He | Ho].
  - rewrite (nextTerm_even _ He). split.
    + intros Hz. left. pose proof (Z.div_mod t 2). lia.
    + intros [-> | ->]; [done | by vm_compute in He].
  - rewrite (nextTerm_odd _ Ho). unfold wrap. rewrite modulus_eq. split.
    + intros Hz. right.
      pose proof (Z.div_mod (3 * t + 1) 4294967296).
      assert (0 <= (3 * t + 1) / 4294967296 < 3) as Hq.
      { split; [apply Z.div_pos; lia | apply Z.div_lt_upper_bound; lia]. }
      pose proof (Z.div_mod t 2). lia.
    + intros [-> | ->]; [by vm_compute in Ho | by vm_compute].
Qed.

Lemma nextTerm_zero_iff_witness :
  nextTerm 1431655765 = 0 <-> 1431655765 = 0 \/ 1431655765 = 1431655765.
Proof. apply (nextTerm_zero_iff 1431655765). unfold uint. rewrite modulus_eq. lia. Defined.

(** ** [collatzChainLength] *)

Section ChainLengthFacts.

Lemma loop_terms_orbit fuel n k :
  chain_steps n k -> (k <= fuel)%nat -> loop_terms fuel n = orbit k n.
Proof.
  intros Hk. revert fuel.
  induction Hk as [n Hn | n k Hn Hk IH]; intros fuel Hf.
  - by apply loop_terms_low.
  - destruct fuel as [| fuel]; [lia |]. simpl.
    destruct (Z.ltb_spec 1 n); [| lia]. f_equal. apply IH. lia.
Qed.

Lemma chain_steps_iter n k :
  chain_steps n k ->
  Nat.iter k nextTerm n <= 1 /\
  forall j, (j < k)%nat -> 1 < Nat.iter j nextTerm n.
Proof.
  induction 1 as [n Hn | n k Hn Hk [IH1 IH2]].
  - split; [done | intros j Hj; lia].
  - split; [by rewrite Nat.iter_succ_r |].
    intros [| j] Hj; [done |]. rewrite Nat.iter_succ_r. apply IH2. lia.
Qed.

Lemma iter_nextTerm_uint j n : uint n -> uint (Nat.iter j nextTerm n).
Proof. intros Hu. induction j as [| j IH]; [done |]. simpl. by apply nextTerm_uint. Qed.

Lemma chain_steps_pow2 (j : nat) : chain_steps (2 ^ Z.of_nat j) j.
Proof.
  induction j as [| j IH]; [by constructor |].
  assert (2 ^ Z.of_nat (S j) = 2 * 2 ^ Z.of_nat j) as Hpow.
  { rewrite Nat2Z.inj_succ. apply Z.pow_succ_r. lia. }
  pose proof (Z.pow_pos_nonneg 2 (Z.of_nat j)) as Hpos.
  constructor; [lia |].
  rewrite nextTerm_even.
  - rewrite Hpow, Z.mul_comm, Z.div_mul by lia. done.
  - rewrite Hpow, Z.mul_comm. apply Z.mod_mul. lia.
Qed.

End ChainLengthFacts.

(** X2.  The count returned is exact: it is one more than the number of
    calls made to [nextTerm], whose arguments are the successive terms
    of the chain, and it stays below [2^32]: [termsCount] never wraps.
    The call touches neither the memory nor the allocator. *)
Theorem collatzChainLength_counts_terms fuel n st r st' :
  uint n -> collatzChainLength_run fuel n st = (Some r, st') ->
  exists terms,
    trace st' = trace st ++ CallChainLength n :: map CallNextTerm terms /\
    terms = orbit (length terms) n /\
    r = 1 + Z.of_nat (length terms) /\ r < modulus /\
    mem st' = mem st /\ brk st' = brk st.
Proof.
  intros Hu. rewrite collatzChainLength_run_eq. intros [= Hr <-]. simpl.
  apply collatzChainLength_sound in Hr as (k & Hf & Hk & ->); [| done].
  exists (orbit k n). rewrite length_orbit.
  rewrite (loop_terms_orbit _ _ _ Hk Hf).
  pose proof (chain_steps_bound _ _ Hu Hk). repeat split; lia.
Qed.

Lemma collatzChainLength_counts_terms_witness :
  exists terms,
    trace (collatzChainLength_run 20 7 initial_state).2 =
      trace initial_state ++ CallChainLength 7 :: map CallNextTerm terms /\
    terms = orbit (length terms) 7 /\
    17 = 1 + Z.of_nat (length terms) /\ 17 < modulus /\
    mem (collatzChainLength_run 20 7 initial_state).2 = mem initial_state /\
    brk (collatzChainLength_run 20 7 initial_state).2 = brk initial_state.
Proof.
  apply (collatzChainLength_counts_terms 20 7 initial_state 17).
  - unfold uint. rewrite modulus_eq. lia.
  - vm_compute. reflexivity.
Defined.

(** X3.  The count is the position of the first term that is at most 1: the
    term reached after [r - 1] steps is 1 or 0, and every term before it
    is greater than 1. *)
Theorem collatzChainLength_first_exit fuel n r :
  uint n -> collatzChainLength fuel n = Some r ->
  1 <= r /\
  0 <= Nat.iter (Z.to_nat (r - 1)) nextTerm n <= 1 /\
  forall j, (j < Z.to_nat (r - 1))%nat -> 1 < Nat.iter j nextTerm n.
Proof.
  intros Hu Hr.
  apply collatzChainLength_sound in Hr as (k & _ & Hk & ->); [| done].
  replace (Z.to_nat (1 + Z.of_nat k - 1)) with k by lia.
  destruct (chain_steps_iter _ _ Hk) as [H1 H2].
  pose proof (iter_nextTerm_uint k n Hu) as Hi. unfold uint in Hi.
  split; [lia |]. split; [lia | done].
Qed.

Lemma collatzChainLength_first_exit_witness :
  1 <= 17 /\
  0 <= Nat.iter (Z.to_nat (17 - 1)) nextTerm 7 <= 1 /\
  forall j, (j < Z.to_nat (17 - 1))%nat -> 1 < Nat.iter j nextTerm 7.
Proof.
  apply (collatzChainLength_first_exit 20 7 17).
  - unfold uint. rewrite modulus_eq. lia.
  - vm_compute. reflexivity.
Defined.

(** X4.  On a power of two [2^j] that an [unsigned int] holds, the chain is
    the [j] halvings down to 1: the length is [j + 1]. *)
Theorem collatzChainLength_pow2 fuel (j : nat) :
  (j <= 31)%nat -> (j <= fuel)%nat ->
  collatzChainLength fuel (2 ^ Z.of_nat j) = Some (Z.of_nat j + 1).
Proof.
  intros Hj Hf.
  rewrite (collatzChainLength_complete fuel _ j); [f_equal; lia | | apply chain_steps_pow2 | done].
  unfold uint. rewrite modulus_eq. split; [apply Z.pow_nonneg; lia |].
  apply (Z.lt_le_trans _ (2 ^ 32)); [| done].
  apply Z.pow_lt_mono_r; lia.
Qed.

Lemma collatzChainLength_pow2_witness :
  collatzChainLength 31 (2 ^ Z.of_nat 31) = Some (Z.of_nat 31 + 1).
Proof. apply (collatzChainLength_pow2 31 31); lia. Defined.

(** ** Agreement with the unbounded Collatz chain *)

Section Agreement.

Lemma nextTerm_no_overflow n :
  uint n -> (Z.odd n = true -> 3 * n + 1 < modulus) ->
  nextTerm n = collatz_step n.
Proof.
  intros Hu Hn. unfold collatz_step. rewrite Zodd_mod in *.
  destruct (parity_cases n) as [He | Ho].
  - by rewrite (nextTerm_even _ He), He.
  - rewrite (nextTerm_odd _ Ho), Ho in *. simpl in *.
    apply wrap_small. unfold uint in *. specialize (Hn eq_refl). lia.
Qed.

Lemma collatz_length_low fuel n c : n <= 1 -> collatz_length fuel n c = Some c.
Proof. intros Hn. destruct fuel; simpl; by destruct (Z.ltb_spec 1 n); [lia |]. Qed.

(** As long as no [3t + 1] overflows, the two loops walk the same terms. *)
Lemma chain_loop_collatz_length fuel n c c' :
  uint n ->
  Forall (fun t => Z.odd t = true -> 3 * t + 1 < modulus) (loop_terms fuel n) ->
  (chain_loop fuel n c = None /\ collatz_length fuel n c' = None) \/
  (exists k, (k <= fuel)%nat /\ chain_steps n k /\
             collatz_length fuel n c' = Some (c' + Z.of_nat k)).
Proof.
  revert n c c'. induction fuel as [| fuel IH]; intros n c c' Hu Hall.
  - simpl. destruct (Z.ltb_spec 1 n) as [Hn | Hn].
    + by left.
    + right. exists O. split; [lia |]. split; [by constructor |]. f_equal. lia.
  - simpl in *. destruct (Z.ltb_spec 1 n) as [Hn | Hn].
    + apply Forall_cons in Hall as [Hn1 Hall].
      assert (nextTerm n = collatz_step n) as Hstep
        by (by apply nextTerm_no_overflow).
      rewrite <- Hstep.
      destruct (IH (nextTerm n) (wrap (c + 1)) (c' + 1) (nextTerm_uint _ Hu) Hall)
        as [[H1 H2] | (k & Hk & Hs & Hl)].
      * by left.
      * right. exists (S k). split; [lia |]. split; [by constructor |].
        rewrite Hl. f_equal. lia.
    + right. exists O. split; [lia |]. split; [by constructor |]. f_equal. lia.
Qed.

End Agreement.

(** X5.  When no term of the chain of [n] that the loop visits makes
    [3t + 1] overflow, [collatzChainLength] computes the length of the
    Collatz chain of [n] on unbounded integers (and runs out of fuel
    exactly when that computation does). *)
Theorem collatzChainLength_collatz_length fuel n :
  uint n ->
  Forall (fun t => Z.odd t = true -> 3 * t + 1 < modulus) (loop_terms fuel n) ->
  collatzChainLength fuel n = collatz_length fuel n 1.
Proof.
  intros Hu Hall. unfold collatzChainLength.
  destruct (Z.ltb_spec 1 n) as [Hn | Hn].
  - destruct (chain_loop_collatz_length fuel n 1 1 Hu Hall)
      as [[H1 H2] | (k & Hk & Hs & Hl)].
    + by rewrite H1, H2.
    + rewrite Hl, (chain_loop_complete _ _ _ _ Hs Hk uint_1). f_equal.
      apply wrap_small. pose proof (chain_steps_bound _ _ Hu Hs).
      unfold uint. lia.
  - by rewrite collatz_length_low.
Qed.

Lemma collatzChainLength_collatz_length_witness :
  collatzChainLength 200 27 = collatz_length 200 27 1.
Proof.
  apply (collatzChainLength_collatz_length 200 27).
  - unfold uint. rewrite modulus_eq. lia.
  - apply (bool_decide_unpack _). vm_compute. exact I.
Defined.

(** ** [determineLongestChain] *)

Section SearchFacts.

(** A loop that has returned for one bound is one iteration short of
    the loop for the next bound. *)
Lemma search_loop_extend fuel ub c steps steps' i lg r :
  0 <= i <= ub -> ub < modulus - 1 ->
  collatzChainLength fuel (ub + 1) = Some c ->
  search_loop fuel steps ub i lg = Some r ->
  (Z.to_nat (ub + 1 - i) <= steps')%nat ->
  search_loop fuel steps' (ub + 1) i lg =
  Some (if r.2 <? c then (ub + 1, c) else r).
Proof.
  intros Hi Hub Hc. revert steps' i lg Hi.
  induction steps as [| steps IH]; intros steps' i lg Hi Hr Hs.
  - destruct (decide (i = ub)) as [-> | Hne].
    + rewrite search_loop_exit in Hr by lia. injection Hr as <-.
      destruct steps' as [| steps']; [lia |].
      rewrite search_loop_iter, wrap_succ_small, Hc by lia.
      apply search_loop_exit. lia.
    + rewrite search_loop_out_of_steps in Hr; [done | lia].
  - destruct (decide (i = ub)) as [-> | Hne].
    + rewrite search_loop_exit in Hr by lia. injection Hr as <-.
      destruct steps' as [| steps']; [lia |].
      rewrite search_loop_iter, wrap_succ_small, Hc by lia.
      apply search_loop_exit. lia.
    + destruct steps' as [| steps']; [lia |].
      rewrite search_loop_iter in Hr |- * by lia.
      rewrite wrap_succ_small in Hr |- * by lia.
      destruct (collatzChainLength fuel (i + 1)) as [c1 |]; [| done].
      apply IH; [lia | done | lia].
Qed.

Lemma first_longest_bounds ub bn bl :
  ub < modulus -> first_longest ub bn bl -> 1 <= bl < modulus.
Proof.
  intros Hub (Hb & Hl & _). assert (uint bn) as Hu by (unfold uint; lia).
  apply ChainLength_steps in Hl as (k & Hk & ->); [| done].
  pose proof (chain_steps_bound _ _ Hu Hk). lia.
Qed.

(** The searches up to a million all return. *)
Lemma search_to_million fuel ub :
  1 <= ub <= 1000000 -> (Z.to_nat 1000000 <= fuel)%nat ->
  exists bn bl,
    determineLongestChain fuel ub = Some (bn, bl) /\
    first_longest ub bn bl /\ bl <= 525.
Proof.
  intros Hub Hf.
  pose proof (search_loop_million fuel Hf) as Hm.
  assert (is_Some (determineLongestChain fuel ub)) as [[bn bl] Hr].
  { unfold determineLongestChain.
    apply search_loop_complete; [lia | rewrite modulus_eq; lia | lia |].
    intros j Hj.
    apply (search_loop_calls_return fuel 1000000 fuel 0 (1, 1) _
             ltac:(lia) ltac:(rewrite modulus_eq; lia) Hm). lia. }
  exists bn, bl. split; [done |].
  assert (first_longest ub bn bl) as Hfl.
  { apply (determineLongestChain_sound fuel); [rewrite modulus_eq; lia | done]. }
  split; [done |].
  assert (first_longest 1000000 837799 525) as (_ & _ & Hmax & _).
  { apply (determineLongestChain_sound fuel); [rewrite modulus_eq; lia | done]. }
  destruct Hfl as (Hb & Hl & _). apply (Hmax bn); [lia | done].
Qed.

End SearchFacts.

(** X6.  Searching one candidate further is searching as before and then
    comparing once more: the new candidate [upperBound + 1] replaces the
    previous result exactly when its chain is strictly longer. *)
Theorem determineLongestChain_extend fuel ub bn bl c :
  0 <= ub < modulus - 1 -> (Z.to_nat (ub + 1) <= fuel)%nat ->
  determineLongestChain fuel ub = Some (bn, bl) ->
  collatzChainLength fuel (ub + 1) = Some c ->
  determineLongestChain fuel (ub + 1) =
  Some (if bl <? c then (ub + 1, c) else (bn, bl)).
Proof.
  intros Hub Hf Hr Hc. unfold determineLongestChain in *.
  rewrite (search_loop_extend fuel ub c fuel fuel 0 (1, 1) (bn, bl));
    [done | lia | lia | done | done |].
  by replace (ub + 1 - 0) with (ub + 1) by lia.
Qed.

Lemma determineLongestChain_extend_witness :
  determineLongestChain 20 (6 + 1) =
  Some (if 9 <? 17 then (6 + 1, 17) else (6, 9)).
Proof.
  apply (determineLongestChain_extend 20 6 6 9 17).
  - rewrite modulus_eq. lia.
  - lia.
  - vm_compute. reflexivity.
  - vm_compute. reflexivity.
Defined.

(** X7.  A larger bound never gives a smaller result: neither the recorded
    length nor the recorded number decreases, and when the length stays
    the same so does the number (the earlier candidate keeps its place). *)
Theorem determineLongestChain_monotone fuel fuel' ub ub' bn bl bn' bl' :
  1 <= ub <= ub' -> ub' < modulus ->
  determineLongestChain fuel ub = Some (bn, bl) ->
  determineLongestChain fuel' ub' = Some (bn', bl') ->
  bl <= bl' /\ bn <= bn' /\ (bl = bl' -> bn = bn').
Proof.
  intros Hub Hub' Hr Hr'.
  apply determineLongestChain_sound in Hr as (Hb & Hl & Hmax & Hfirst); [| lia].
  apply determineLongestChain_sound in Hr' as (Hb' & Hl' & Hmax' & Hfirst'); [| lia].
  assert (bl <= bl') as Hle by (apply (Hmax' bn); [lia | done]).
  assert (bn <= bn') as Hbn.
  { destruct (Z.le_gt_cases bn bn') as [| Hgt]; [done |].
    assert (bl' < bl) by (apply (Hfirst bn'); [lia | done]). lia. }
  split; [done |]. split; [done |]. intros ->.
  destruct (Z.le_gt_cases bn' bn) as [| Hgt]; [lia |].
  assert (bl' < bl') by (apply (Hfirst' bn); [lia | done]). lia.
Qed.

Lemma determineLongestChain_monotone_witness :
  9 <= 17 /\ 6 <= 7 /\ (9 = 17 -> 6 = 7).
Proof.
  apply (determineLongestChain_monotone 20 20 6 7 6 9 7 17).
  - lia.
  - rewrite modulus_eq. lia.
  - vm_compute. reflexivity.
  - vm_compute. reflexivity.
Defined.

(** X8.  For every bound from 1 to a million the search returns, given fuel
    for a million iterations: no chain in that range is caught in a
    cycle of the 32-bit arithmetic.  The result is the first candidate
    with the longest chain, and no chain is longer than 525 terms. *)
Theorem determineLongestChain_total_to_million fuel ub :
  1 <= ub <= 1000000 -> (Z.to_nat 1000000 <= fuel)%nat ->
  exists bn bl,
    determineLongestChain fuel ub = Some (bn, bl) /\
    first_longest ub bn bl /\ bl <= 525.
Proof. apply search_to_million. Qed.

Lemma determineLongestChain_total_to_million_witness :
  exists bn bl,
    determineLongestChain (Z.to_nat 1000000) 1000 = Some (bn, bl) /\
    first_longest 1000 bn bl /\ bl <= 525.
Proof.
  apply (determineLongestChain_total_to_million (Z.to_nat 1000000) 1000); lia.
Defined.

(** X9.  A call allocates the two words of its array and writes to no other
    word, whether it returns or is cut short; if it returns, it returns
    the address of that array, which then holds two values. *)
Theorem determineLongestChain_writes_its_array_only fuel ub st :
  0 <= ub < modulus ->
  brk (determineLongestChain_run fuel ub st).2 = brk st + 2 /\
  (forall a, a <> brk st -> a <> brk st + 1 ->
     mem (determineLongestChain_run fuel ub st).2 !! a = mem st !! a) /\
  is_Some (read_array (determineLongestChain_run fuel ub st).2 (brk st)) /\
  (forall p, (determineLongestChain_run fuel ub st).1 = Some p -> p = brk st).
Proof.
  intros Hub.
  destruct (determineLongestChain_run_spec fuel ub st Hub)
    as (lg' & j & r & st' & -> & Hb & Hfr & Ha & _ & _ & Hres).
  simpl. split; [done |]. split; [done |]. split; [by exists lg' |].
  intros p ->. destruct Hres as [([= ->] & _) | (? & _)]; done.
Qed.

Lemma determineLongestChain_writes_its_array_only_witness :
  brk (determineLongestChain_run 20 7 initial_state).2 = brk initial_state + 2 /\
  (forall a, a <> brk initial_state -> a <> brk initial_state + 1 ->
     mem (determineLongestChain_run 20 7 initial_state).2 !! a =
     mem initial_state !! a) /\
  is_Some (read_array (determineLongestChain_run 20 7 initial_state).2
             (brk initial_state)) /\
  (forall p, (determineLongestChain_run 20 7 initial_state).1 = Some p ->
     p = brk initial_state).
Proof.
  apply (determineLongestChain_writes_its_array_only 20 7 initial_state).
  rewrite modulus_eq. lia.
Defined.

(** ** [main] *)

Section Main.

Variable atoi : string -> Z.

Lemma as_int_small z : 0 <= z < 2147483648 -> as_int z = z.
Proof.
  intros Hz. unfold as_int. change (2 ^ (wordsize - 1)) with 2147483648.
  by destruct (Z.ltb_spec z 2147483648); [| lia].
Qed.

(** X10.  Unless there is exactly one argument, [main] searches up to a
    million whatever the arguments are, prints the line for
    [(837799, 525)] and exits with status 0. *)
Theorem main_default fuel argc argv :
  argc <> 2 -> (Z.to_nat 1000000 <= fuel)%nat ->
  main atoi fuel argc argv =
  Some ("Number with longest chain was 837799 with 525 terms." +:+ newline, 0).
Proof.
  intros Hargc Hf. unfold main.
  destruct (Z.eqb_spec argc 2); [done |].
  unfold determineLongestChain. by rewrite search_loop_million.
Qed.

(** X11.  With one argument that [atoi] reads as a number from 0 to a million,
    [main] prints the first candidate with the longest chain and its
    length as they are (neither is shown as a negative number) and
    exits with status 0; an argument read as 0 gives the line for
    [(1, 1)]. *)
Theorem main_with_argument fuel argv v :
  atoi (default EmptyString (argv !! 1%nat)) = v ->
  0 <= v <= 1000000 -> (Z.to_nat 1000000 <= fuel)%nat ->
  exists bn bl,
    main atoi fuel 2 argv =
      Some ("Number with longest chain was " +:+ pretty bn +:+
            " with " +:+ pretty bl +:+ " terms." +:+ newline, 0) /\
    (v = 0 -> bn = 1 /\ bl = 1) /\
    (1 <= v -> first_longest v bn bl).
Proof.
  intros Hv Hr Hf. unfold main. simpl. rewrite Hv.
  rewrite wrap_small by (unfold uint; rewrite modulus_eq; lia).
  destruct (decide (v = 0)) as [-> | Hne].
  - exists 1, 1. split; [| split; [done | lia]].
    unfold determineLongestChain. by rewrite search_loop_exit.
  - destruct (search_to_million fuel v)
      as (bn & bl & -> & Hfl & Hbl); [lia | done |].
    exists bn, bl. split; [| split; [lia | done]].
    pose proof (first_longest_bounds v bn bl ltac:(rewrite modulus_eq; lia) Hfl).
    destruct Hfl as (Hb & _).
    unfold result_line. simpl. rewrite !as_int_small by lia. done.
Qed.

End Main.

Lemma main_default_witness :
  main (fun _ => 0) (Z.to_nat 1000000) 1 ["collatz"] =
  Some ("Number with longest chain was 837799 with 525 terms." +:+ newline, 0).
Proof. apply (main_default (fun _ => 0)); lia. Defined.

Lemma main_with_argument_witness :
  exists bn bl,
    main (fun _ => 7) (Z.to_nat 1000000) 2 ["collatz"; "7"] =
      Some ("Number with longest chain was " +:+ pretty bn +:+
            " with " +:+ pretty bl +:+ " terms." +:+ newline, 0) /\
    (7 = 0 -> bn = 1 /\ bl = 1) /\
    (1 <= 7 -> first_longest 7 bn bl).
Proof.
  apply (main_with_argument (fun _ => 7) (Z.to_nat 1000000) ["collatz"; "7"] 7);
    [reflexivity | lia | lia].
Defined.

Section Exact.

Lemma agree_steps_chain n k : agree_steps n k -> chain_steps n k.
Proof. induction 1; by constructor. Qed.

Lemma agree_steps_collatz_length n k fuel c :
  agree_steps n k -> (k <= fuel)%nat ->
  collatz_length fuel n c = Some (c + Z.of_nat k).
Proof.
  intros Hk. revert fuel c.
  induction Hk as [n Hn | n k Hn Hstep Hk IH]; intros fuel c Hf.
  - rewrite collatz_length_low by done. f_equal. lia.
  - destruct fuel as [| fuel]; [lia |]. simpl.
    destruct (Z.ltb_spec 1 n); [| lia].
    rewrite <- Hstep, IH by lia. f_equal. lia.
Qed.

Lemma agree_steps_collatz_length_inv n k fuel c r :
  agree_steps n k -> collatz_length fuel n c = Some r -> r = c + Z.of_nat k.
Proof.
  intros Hk. revert fuel c.
  induction Hk as [n Hn | n k Hn Hstep Hk IH]; intros fuel c Hr.
  - rewrite collatz_length_low in Hr by done. injection Hr as <-. lia.
  - destruct fuel as [| fuel]; simpl in Hr;
      (destruct (Z.ltb_spec 1 n); [| lia]); [done |].
    rewrite <- Hstep in Hr. apply IH in Hr. lia.
Qed.

Lemma exact_walk_sound wfuel tbl i n c v :
  table_exact tbl -> uint n -> exact_walk wfuel tbl i n c = Some v ->
  exists k, agree_steps n k /\ v = c + Z.of_nat k.
Proof.
  intros Htbl. revert n c.
  induction wfuel as [| wfuel IH]; intros n c Hu; simpl;
    destruct (Z.leb_spec n 1) as [Hle | Hgt].
  - intros [= <-]. exists O. split; [by constructor | lia].
  - destruct (n <? i); [| done].
    destruct (tbl !! Z.to_pos n) as [v0 |] eqn:Hlook; [| done].
    intros [= <-]. destruct (Htbl _ _ Hlook) as (k & Hk & ->).
    rewrite Z2Pos.id in Hk by lia. by exists k.
  - intros [= <-]. exists O. split; [by constructor | lia].
  - destruct (n <? i).
    + destruct (tbl !! Z.to_pos n) as [v0 |] eqn:Hlook; [| done].
      intros [= <-]. destruct (Htbl _ _ Hlook) as (k & Hk & ->).
      rewrite Z2Pos.id in Hk by lia. by exists k.
    + destruct (Z.odd n) eqn:Hodd.
      * destruct (Z.ltb_spec (3 * n + 1) 4294967296) as [Hlt |]; [| done].
        assert (nextTerm n = collatz_step n) as Hstep.
        { apply nextTerm_no_overflow; [done |]. rewrite modulus_eq. lia. }
        assert (collatz_step n = 3 * n + 1) as Hcs
          by (unfold collatz_step; by rewrite Hodd).
        intros Hw. apply IH in Hw as (k & Hk & ->).
        -- exists (S k). split; [| lia].
           constructor; [lia | done |]. by rewrite Hstep, Hcs.
        -- rewrite <- Hcs, <- Hstep. by apply nextTerm_uint.
      * assert (nextTerm n = collatz_step n) as Hstep.
        { apply nextTerm_no_overflow; [done |]. by rewrite Hodd. }
        assert (collatz_step n = Z.div2 n) as Hcs
          by (unfold collatz_step; rewrite Hodd; symmetry; apply Z.div2_div).
        intros Hw. apply IH in Hw as (k & Hk & ->).
        -- exists (S k). split; [| lia].
           constructor; [lia | done |]. by rewrite Hstep, Hcs.
        -- rewrite <- Hcs, <- Hstep. by apply nextTerm_uint.
Qed.

Lemma table_exact_empty : table_exact ∅.
Proof. intros p v Hp. by rewrite lookup_empty in Hp. Qed.

Lemma table_exact_insert tbl i k :
  0 < i -> table_exact tbl -> agree_steps i k ->
  table_exact (<[Z.to_pos i := Z.of_nat k]> tbl).
Proof.
  intros Hi Htbl Hk p v Hp.
  apply lookup_insert_Some in Hp as [[<- <-] | [_ Hp]].
  - exists k. by rewrite Z2Pos.id.
  - by apply Htbl.
Qed.

Lemma exact_scan_sound wfuel limit count tbl i :
  table_exact tbl -> 1 <= i -> i + Z.of_nat count <= modulus ->
  exact_scan wfuel limit count tbl i = true ->
  forall j, i <= j < i + Z.of_nat count ->
    exists k, agree_steps j k /\ Z.of_nat k < limit.
Proof.
  revert tbl i. induction count as [| count IH]; intros tbl i Htbl Hi Hub Hs j Hj;
    [lia |].
  simpl in Hs.
  destruct (exact_walk wfuel tbl i i 0) as [v |] eqn:Hw; [| done].
  apply andb_true_iff in Hs as [Hv Hs]. apply Z.ltb_lt in Hv.
  apply exact_walk_sound in Hw as (k & Hk & ->);
    [| done | unfold uint; lia].
  rewrite Z.add_0_l in *.
  destruct (decide (j = i)) as [-> | Hne]; [by exists k |].
  apply (IH (<[Z.to_pos i := Z.of_nat k]> tbl) (i + 1));
    [by apply table_exact_insert; [lia | |] | lia | lia | done | lia].
Qed.

(** The chains of the candidates below 159487, evaluated. *)
Lemma exact_scan_159486 : exact_scan 400 400 (Z.to_nat 159486) ∅ 1 = true.
Proof. vm_compute. reflexivity. Qed.

Lemma agree_steps_below_159487 n :
  1 <= n < 159487 -> exists k, agree_steps n k /\ Z.of_nat k < 400.
Proof.
  intros Hn.
  apply (exact_scan_sound 400 400 (Z.to_nat 159486) ∅ 1);
    [apply table_exact_empty | lia | rewrite modulus_eq; lia
    | apply exact_scan_159486 | lia].
Qed.

Lemma CollatzLength_agree n k r :
  agree_steps n k -> CollatzLength n r -> r = 1 + Z.of_nat k.
Proof. intros Hk [fuel Hr]. by apply (agree_steps_collatz_length_inv _ _ _ _ _ Hk Hr). Qed.

Lemma ChainLength_agree n k r :
  uint n -> agree_steps n k -> ChainLength n r -> r = 1 + Z.of_nat k.
Proof.
  intros Hu Hk Hr. apply ChainLength_steps in Hr as (k' & Hk' & ->); [| done].
  by rewrite (chain_steps_det _ _ _ Hk' (agree_steps_chain _ _ Hk)).
Qed.

End Exact.

(** X12.  For every candidate below 159487 the program computes the true
    Collatz chain length: with fuel for 400 steps, [collatzChainLength]
    and the chain length on unbounded integers return the same count.
    159487 is the first candidate for which they differ. *)
Theorem collatzChainLength_exact_below_159487 fuel n :
  1 <= n < 159487 -> (400 <= fuel)%nat ->
  (exists r, collatzChainLength fuel n = Some r /\
             collatz_length fuel n 1 = Some r /\ r <= 400) /\
  collatzChainLength fuel 159487 <> collatz_length fuel 159487 1.
Proof.
  intros Hn Hf. split.
  - destruct (agree_steps_below_159487 n Hn) as (k & Hk & Hlim).
    exists (1 + Z.of_nat k). split; [| split; [| lia]].
    + apply collatzChainLength_complete;
        [unfold uint; rewrite modulus_eq; lia | by apply agree_steps_chain | lia].
    + apply agree_steps_collatz_length; [done | lia].
  - assert (collatzChainLength 300 159487 = Some 246) as H1 by (by vm_compute).
    apply (collatzChainLength_mono _ fuel) in H1;
      [| unfold uint; rewrite modulus_eq; lia | lia].
    rewrite H1. intros Heq. symmetry in Heq.
    assert (exists fuel', collatz_length fuel' 159487 1 = Some 184) as [fuel' H2]
      by (exists 300%nat; by vm_compute).
    assert (forall f1 f2 n c r1 r2,
              collatz_length f1 n c = Some r1 -> collatz_length f2 n c = Some r2 ->
              r1 = r2) as Hdet.
    { induction f1 as [| f1 IH]; intros f2 m c r1 r2; destruct f2 as [| f2]; simpl;
        destruct (1 <? m); try done; try congruence. apply IH. }
    by specialize (Hdet _ _ _ _ _ _ Heq H2).
Qed.

Lemma collatzChainLength_exact_below_159487_witness :
  (exists r, collatzChainLength 400 27 = Some r /\
             collatz_length 400 27 1 = Some r /\ r <= 400) /\
  collatzChainLength 400 159487 <> collatz_length 400 159487 1.
Proof. apply (collatzChainLength_exact_below_159487 400 27); lia. Defined.

(** X13.  For every bound below 159487 the search finds the true answer: the
    length it records is the greatest Collatz chain length, on unbounded
    integers, among the candidates [1 .. upperBound], and the number it
    records is the first candidate whose Collatz chain has that length. *)
Theorem determineLongestChain_exact_below_159487 fuel ub :
  1 <= ub < 159487 -> (Z.to_nat 1000000 <= fuel)%nat ->
  exists bn bl,
    determineLongestChain fuel ub = Some (bn, bl) /\
    1 <= bn <= ub /\ CollatzLength bn bl /\
    (forall i r, 1 <= i <= ub -> CollatzLength i r -> r <= bl) /\
    (forall i r, 1 <= i < bn -> CollatzLength i r -> r < bl).
Proof.
  intros Hub Hf.
  destruct (search_to_million fuel ub) as (bn & bl & Hr & (Hb & Hl & Hmax & Hfirst) & _);
    [lia | done |].
  assert (forall i r, 1 <= i <= ub -> CollatzLength i r -> ChainLength i r) as Hcl.
  { intros i r Hi Hc.
    destruct (agree_steps_below_159487 i) as (k & Hk & _); [lia |].
    rewrite (CollatzLength_agree _ _ _ Hk Hc).
    exists k. apply collatzChainLength_complete;
      [unfold uint; rewrite modulus_eq; lia | by apply agree_steps_chain | lia]. }
  exists bn, bl. split; [done |]. split; [done |]. split.
  - destruct (agree_steps_below_159487 bn) as (k & Hk & _); [lia |].
    rewrite (ChainLength_agree bn k bl) by
      (done || unfold uint; rewrite modulus_eq; lia).
    exists k. by apply agree_steps_collatz_length.
  - split.
    + intros i r Hi Hc. apply (Hmax i); [done | by apply Hcl].
    + intros i r Hi Hc. apply (Hfirst i); [done | apply Hcl; [lia | done]].
Qed.

Lemma determineLongestChain_exact_below_159487_witness :
  exists bn bl,
    determineLongestChain (Z.to_nat 1000000) 1000 = Some (bn, bl) /\
    1 <= bn <= 1000 /\ CollatzLength bn bl /\
    (forall i r, 1 <= i <= 1000 -> CollatzLength i r -> r <= bl) /\
    (forall i r, 1 <= i < bn -> CollatzLength i r -> r < bl).
Proof.
  apply (determineLongestChain_exact_below_159487 (Z.to_nat 1000000) 1000); lia.
Defined.
